(** * Agentic RAG front end: the stream consumer, the upload pipeline and the
      query client of [src/App.jsx]

    The development embeds three asynchronous handlers of the React
    application:

    - [startAgent] (component [AgentBox]): reads a streamed response body,
      decodes it incrementally into text, cuts the text into blank-line
      delimited frames and appends one event per frame to the [events]
      state;
    - [handleFiles] (component [App]): turns a batch of files into upload
      items and uploads them one after the other;
    - [runQuery] (component [App]): the single request/response query.

    The network is the environment.  An [await] is modelled by the value the
    awaited promise settles with, so that a handler becomes a function of the
    sequence of values the network delivers to it.  The platform functions the
    handlers call ([String.prototype.split], [trim], [TextDecoder],
    [JSON.parse], ...) are modelled after their standards. *)

From Stdlib Require Import ZArith List Bool Lia.
From Stdlib Require Import Strings.String Strings.Ascii Strings.Byte.
Import ListNotations.

Set Warnings "-register-all".
Local Open Scope Z_scope.

(* ================================================================== *)
(** * JavaScript strings                                               *)
(* ================================================================== *)

Module JS.

(** A JavaScript string is a sequence of UTF-16 code units. *)
Definition jsstring := list Z.

Definition LF : Z := 10.
Definition quote : Z := 34.
Definition apostrophe : Z := 39.

(** An ASCII literal as a JavaScript string. *)
Definition lit (s : string) : jsstring :=
  map (fun a => Z.of_N (N_of_ascii a)) (list_ascii_of_string s).

(** A literal written with apostrophes where the JavaScript text has double
    quotes: [dq "{'type':'done'}"] is the text [{"type":"done"}]. *)
Definition dq (s : string) : jsstring :=
  map (fun c => if c =? apostrophe then quote else c) (lit s).

(** [a === b] on strings. *)
Fixpoint eqb (a b : jsstring) : bool :=
  match a, b with
  | [], [] => true
  | x :: a', y :: b' => (x =? y) && eqb a' b'
  | _, _ => false
  end.

(** ECMAScript WhiteSpace and LineTerminator code points: what [trim]
    removes and what [\s] matches. *)
Definition is_white_space (c : Z) : bool :=
  (c =? 0x9) || (c =? 0xA) || (c =? 0xB) || (c =? 0xC) || (c =? 0xD)
  || (c =? 0x20) || (c =? 0xA0) || (c =? 0x1680)
  || ((0x2000 <=? c) && (c <=? 0x200A))
  || (c =? 0x2028) || (c =? 0x2029) || (c =? 0x202F) || (c =? 0x205F)
  || (c =? 0x3000) || (c =? 0xFEFF).

Fixpoint dropWhile (p : Z -> bool) (s : jsstring) : jsstring :=
  match s with
  | [] => []
  | c :: s' => if p c then dropWhile p s' else s
  end.

Definition trimStart (s : jsstring) : jsstring := dropWhile is_white_space s.
Definition trimEnd (s : jsstring) : jsstring :=
  rev (dropWhile is_white_space (rev s)).

(** [s.trim()] *)
Definition trim (s : jsstring) : jsstring := trimEnd (trimStart s).

(** [s.startsWith(p)] *)
Fixpoint startsWith (s p : jsstring) : bool :=
  match p, s with
  | [], _ => true
  | x :: p', y :: s' => (x =? y) && startsWith s' p'
  | _ :: _, [] => false
  end.

(** Puts a code unit in front of the first piece. *)
Definition cons_head (c : Z) (pieces : list jsstring) : list jsstring :=
  match pieces with
  | [] => [[c]]
  | p :: ps => (c :: p) :: ps
  end.

(** The scan of [split] for a separator that is not empty: the leftmost
    occurrence of [sep] closes the current piece, and the scan goes on behind
    it; [skip] counts the code units of a matched separator still to pass. *)
Fixpoint split_scan (sep s : jsstring) (skip : nat) : list jsstring :=
  match s with
  | [] => [[]]
  | c :: s' =>
      match skip with
      | S k => split_scan sep s' k
      | O =>
          if startsWith s sep
          then [] :: split_scan sep s' (Nat.pred (List.length sep))
          else cons_head c (split_scan sep s' 0)
      end
  end.

(** [s.split(sep)] with a string separator and no limit.  With the empty
    separator the string falls apart into its code units. *)
Definition split (s sep : jsstring) : list jsstring :=
  match sep with
  | [] => map (fun c => [c]) s
  | _ :: _ => split_scan sep s 0
  end.

(** [a.pop()]: the last element (or [undefined]) and the array without it. *)
Definition pop {A} (a : list A) : option A * list A :=
  match a with
  | [] => (None, [])
  | x :: a' => (Some (last a' x), removelast a)
  end.

(** [x || ''] for [x] a string or [undefined]. *)
Definition or_empty (x : option jsstring) : jsstring :=
  match x with
  | Some (c :: s) => c :: s
  | _ => []
  end.

End JS.

Import JS.

(* ================================================================== *)
(** * JSON values                                                      *)
(* ================================================================== *)

(** A number keeps the decimal it was written as: [(-1)^neg * digits *
    10^exponent].  JavaScript rounds it to a double, which is not computed
    here. *)
Record decimal := { neg : bool; digits : Z; exponent : Z }.

(** An object is the list of its own properties in creation order. *)
Inductive json :=
| JNull
| JBool (b : bool)
| JNum (n : decimal)
| JStr (s : jsstring)
| JArr (elements : list json)
| JObj (members : list (jsstring * json)).

(** [{ type: 'done' }] *)
Definition done_event : json := JObj [(lit "type", JStr (lit "done"))].

(** [{ type: 'error', value: message }] *)
Definition error_event (message : jsstring) : json :=
  JObj [(lit "type", JStr (lit "error")); (lit "value", JStr message)].

(** ** [JSON.parse]

    A lexer over the code units and a pushdown recogniser over the tokens,
    after the grammar of ECMA-404 as [JSON.parse] reads it: white space is
    tab, line feed, carriage return and space; a repeated key keeps its first
    place and takes the last value. *)
Module JSON.

Inductive token :=
| TLBrace | TRBrace | TLBracket | TRBracket | TColon | TComma
| TLit (v : json).

(** Where the lexer is inside a number. *)
Inductive num_state :=
| NSign | NZero | NInt | NDot | NFrac | NExp | NExpSign | NExpDigits.

Record num := {
  n_neg : bool;
  n_digits : Z;
  n_frac : Z;
  n_exp_neg : bool;
  n_exp : Z
}.

Definition num_value (n : num) : decimal :=
  {| neg := n_neg n;
     digits := n_digits n;
     exponent := (if n_exp_neg n then - n_exp n else n_exp n) - n_frac n |}.

Inductive mode :=
| Between
| InString (acc : jsstring)
| InEscape (acc : jsstring)
| InUnicode (acc : jsstring) (seen : nat) (value : Z)
| InKeyword (rest : jsstring) (v : json)
| InNumber (st : num_state) (n : num).

Definition is_digit (c : Z) : bool := (48 <=? c) && (c <=? 57).

Definition hex_value (c : Z) : option Z :=
  if is_digit c then Some (c - 48)
  else if (65 <=? c) && (c <=? 70) then Some (c - 55)
  else if (97 <=? c) && (c <=? 102) then Some (c - 87)
  else None.

Definition num_start (negative : bool) (d : Z) : num :=
  {| n_neg := negative; n_digits := d; n_frac := 0;
     n_exp_neg := false; n_exp := 0 |}.

(** One code unit outside any token. *)
Definition between_step (c : Z) : option (mode * list token) :=
  if (c =? 9) || (c =? 10) || (c =? 13) || (c =? 32) then Some (Between, [])
  else if c =? 123 then Some (Between, [TLBrace])
  else if c =? 125 then Some (Between, [TRBrace])
  else if c =? 91 then Some (Between, [TLBracket])
  else if c =? 93 then Some (Between, [TRBracket])
  else if c =? 58 then Some (Between, [TColon])
  else if c =? 44 then Some (Between, [TComma])
  else if c =? 34 then Some (InString [], [])
  else if c =? 45 then Some (InNumber NSign (num_start true 0), [])
  else if c =? 48 then Some (InNumber NZero (num_start false 0), [])
  else if is_digit c then Some (InNumber NInt (num_start false (c - 48)), [])
  else if c =? 116 then Some (InKeyword (lit "rue") (JBool true), [])
  else if c =? 102 then Some (InKeyword (lit "alse") (JBool false), [])
  else if c =? 110 then Some (InKeyword (lit "ull") JNull, [])
  else None.

(** A number may end where it stands. *)
Definition num_final (st : num_state) : bool :=
  match st with
  | NZero | NInt | NFrac | NExpDigits => true
  | _ => false
  end.

(** One code unit inside a number: the next state, or [None] when the code
    unit does not continue the number. *)
Definition num_step (st : num_state) (n : num) (c : Z)
  : option (num_state * num) :=
  let digit := is_digit c in
  let d := c - 48 in
  let int_digit :=
    {| n_neg := n_neg n; n_digits := n_digits n * 10 + d; n_frac := n_frac n;
       n_exp_neg := n_exp_neg n; n_exp := n_exp n |} in
  let frac_digit :=
    {| n_neg := n_neg n; n_digits := n_digits n * 10 + d;
       n_frac := n_frac n + 1;
       n_exp_neg := n_exp_neg n; n_exp := n_exp n |} in
  let exp_digit :=
    {| n_neg := n_neg n; n_digits := n_digits n; n_frac := n_frac n;
       n_exp_neg := n_exp_neg n; n_exp := n_exp n * 10 + d |} in
  let exp_minus :=
    {| n_neg := n_neg n; n_digits := n_digits n; n_frac := n_frac n;
       n_exp_neg := true; n_exp := n_exp n |} in
  let is_e := (c =? 101) || (c =? 69) in
  match st with
  | NSign =>
      if c =? 48 then Some (NZero, n)
      else if digit then Some (NInt, int_digit) else None
  | NZero =>
      if c =? 46 then Some (NDot, n)
      else if is_e then Some (NExp, n) else None
  | NInt =>
      if digit then Some (NInt, int_digit)
      else if c =? 46 then Some (NDot, n)
      else if is_e then Some (NExp, n) else None
  | NDot => if digit then Some (NFrac, frac_digit) else None
  | NFrac =>
      if digit then Some (NFrac, frac_digit)
      else if is_e then Some (NExp, n) else None
  | NExp =>
      if c =? 43 then Some (NExpSign, n)
      else if c =? 45 then Some (NExpSign, exp_minus)
      else if digit then Some (NExpDigits, exp_digit) else None
  | NExpSign => if digit then Some (NExpDigits, exp_digit) else None
  | NExpDigits => if digit then Some (NExpDigits, exp_digit) else None
  end.

(** One code unit after a backslash. *)
Definition escape (c : Z) : option Z :=
  if (c =? 34) || (c =? 92) || (c =? 47) then Some c
  else if c =? 98 then Some 8
  else if c =? 102 then Some 12
  else if c =? 110 then Some 10
  else if c =? 114 then Some 13
  else if c =? 116 then Some 9
  else None.

Definition lex_step (m : mode) (c : Z) : option (mode * list token) :=
  match m with
  | Between => between_step c
  | InString acc =>
      if c =? 34 then Some (Between, [TLit (JStr (rev acc))])
      else if c =? 92 then Some (InEscape acc, [])
      else if c <? 32 then None
      else Some (InString (c :: acc), [])
  | InEscape acc =>
      if c =? 117 then Some (InUnicode acc 0 0, [])
      else
        match escape c with
        | Some x => Some (InString (x :: acc), [])
        | None => None
        end
  | InUnicode acc seen value =>
      match hex_value c with
      | Some h =>
          let value' := value * 16 + h in
          match seen with
          | 3%nat => Some (InString (value' :: acc), [])
          | _ => Some (InUnicode acc (S seen) value', [])
          end
      | None => None
      end
  | InKeyword rest v =>
      match rest with
      | [] => None
      | x :: rest' =>
          if c =? x then
            match rest' with
            | [] => Some (Between, [TLit v])
            | _ :: _ => Some (InKeyword rest' v, [])
            end
          else None
      end
  | InNumber st n =>
      match num_step st n c with
      | Some (st', n') => Some (InNumber st' n', [])
      | None =>
          if num_final st then
            match between_step c with
            | Some (m', toks) => Some (m', TLit (JNum (num_value n)) :: toks)
            | None => None
            end
          else None
      end
  end.

(** The end of the text. *)
Definition lex_end (m : mode) : option (list token) :=
  match m with
  | Between => Some []
  | InNumber st n =>
      if num_final st then Some [TLit (JNum (num_value n))] else None
  | _ => None
  end.

Fixpoint lex (m : mode) (s : jsstring) : option (list token) :=
  match s with
  | [] => lex_end m
  | c :: s' =>
      match lex_step m c with
      | Some (m', toks) =>
          match lex m' s' with
          | Some rest => Some (toks ++ rest)
          | None => None
          end
      | None => None
      end
  end.

(** The containers that are open around the place the recogniser is at. *)
Inductive frame :=
| FArr (elements_rev : list json)
| FObj (members : list (jsstring * json)) (key : jsstring).

Inductive state :=
| PValue
| PArrStart
| PArrNext
| PObjStart (members : list (jsstring * json))
| PObjKey (members : list (jsstring * json))
| PObjColon (members : list (jsstring * json)) (key : jsstring)
| PObjNext (members : list (jsstring * json))
| PEnd (v : json).

Fixpoint set_member (key : jsstring) (v : json)
    (members : list (jsstring * json)) : list (jsstring * json) :=
  match members with
  | [] => [(key, v)]
  | (k, x) :: members' =>
      if eqb k key then (k, v) :: members'
      else (k, x) :: set_member key v members'
  end.

(** A finished value goes to the container around it. *)
Definition deliver (v : json) (stack : list frame) : state * list frame :=
  match stack with
  | [] => (PEnd v, [])
  | FArr es :: stack' => (PArrNext, FArr (v :: es) :: stack')
  | FObj ms k :: stack' => (PObjNext (set_member k v ms), stack')
  end.

Definition close_array (stack : list frame) : option (state * list frame) :=
  match stack with
  | FArr es :: stack' => Some (deliver (JArr (rev es)) stack')
  | _ => None
  end.

Definition value_step (t : token) (stack : list frame)
  : option (state * list frame) :=
  match t with
  | TLit v => Some (deliver v stack)
  | TLBracket => Some (PArrStart, FArr [] :: stack)
  | TLBrace => Some (PObjStart [], stack)
  | _ => None
  end.

Definition step (st : state) (stack : list frame) (t : token)
  : option (state * list frame) :=
  match st with
  | PValue => value_step t stack
  | PArrStart =>
      match t with
      | TRBracket => close_array stack
      | _ => value_step t stack
      end
  | PArrNext =>
      match t with
      | TComma => Some (PValue, stack)
      | TRBracket => close_array stack
      | _ => None
      end
  | PObjStart ms =>
      match t with
      | TLit (JStr k) => Some (PObjColon ms k, stack)
      | TRBrace => Some (deliver (JObj ms) stack)
      | _ => None
      end
  | PObjKey ms =>
      match t with
      | TLit (JStr k) => Some (PObjColon ms k, stack)
      | _ => None
      end
  | PObjColon ms k =>
      match t with
      | TColon => Some (PValue, FObj ms k :: stack)
      | _ => None
      end
  | PObjNext ms =>
      match t with
      | TComma => Some (PObjKey ms, stack)
      | TRBrace => Some (deliver (JObj ms) stack)
      | _ => None
      end
  | PEnd _ => None
  end.

Fixpoint steps (st : state) (stack : list frame) (ts : list token)
  : option json :=
  match ts with
  | [] =>
      match st, stack with
      | PEnd v, [] => Some v
      | _, _ => None
      end
  | t :: ts' =>
      match step st stack t with
      | Some (st', stack') => steps st' stack' ts'
      | None => None
      end
  end.

(** [JSON.parse(text)], [None] when it throws a [SyntaxError]. *)
Definition parse (text : jsstring) : option json :=
  match lex Between text with
  | Some ts => steps PValue [] ts
  | None => None
  end.

End JSON.

(* ================================================================== *)
(** * The frame loop of [startAgent]                                   *)
(* ================================================================== *)

Section Frames.

(** [JSON.parse]: [None] when it throws. *)
Variable JSON_parse : jsstring -> option json.

(** [chunk.trim().split('\n').find(l => l.startsWith('data:'))] *)
Definition data_line (chunk : jsstring) : option jsstring :=
  find (fun l => startsWith l (lit "data:")) (split (trim chunk) [LF]).

(** [line.replace(/^data:\s*/, '')] *)
Definition strip_marker (line : jsstring) : jsstring :=
  if startsWith line (lit "data:")
  then dropWhile is_white_space (skipn 5%nat line)
  else line.

(** [for (const chunk of parts) { ... }]: the events after the loop, from the
    events before it.  [continue] goes to the next part; [break] leaves the
    remaining parts untouched. *)
Fixpoint for_parts (parts : list jsstring) (events : list json) : list json :=
  match parts with
  | [] => events
  | chunk :: rest =>
      match data_line chunk with
      | None => for_parts rest events
      | Some line =>
          let payload := strip_marker line in
          if eqb payload (lit "[DONE]")
          then events ++ [done_event]
          else
            match JSON_parse payload with
            | Some obj => for_parts rest (events ++ [obj])
            | None => for_parts rest events
            end
      end
  end.

End Frames.

(* ================================================================== *)
(** * [TextDecoder('utf-8')] in streaming mode                         *)
(* ================================================================== *)

(** The UTF-8 decoder of the Encoding standard, a byte at a time.  Its state
    survives between [decode(value, { stream: true })] calls, so a character
    whose bytes are spread over two calls is completed by the second. *)
Module TextDecoder.

Record utf8 := {
  code_point : Z;
  bytes_seen : Z;
  bytes_needed : Z;
  lower_boundary : Z;
  upper_boundary : Z
}.

Definition utf8_init : utf8 :=
  {| code_point := 0; bytes_seen := 0; bytes_needed := 0;
     lower_boundary := 0x80; upper_boundary := 0xBF |}.

(** What the handler returns for one byte: nothing yet, an error (decoded as
    U+FFFD, the decoder is not fatal) or a scalar value. *)
Inductive result := Continue | Error | Scalar (cp : Z).

Definition in_range (lo hi b : Z) : bool := (lo <=? b) && (b <=? hi).

(** The handler when no bytes are needed: [byte] starts a character. *)
Definition lead (d : utf8) (byte : Z) : utf8 * result :=
  if in_range 0x00 0x7F byte then (d, Scalar byte)
  else if in_range 0xC2 0xDF byte then
    ({| code_point := Z.land byte 0x1F; bytes_seen := bytes_seen d;
        bytes_needed := 1;
        lower_boundary := lower_boundary d;
        upper_boundary := upper_boundary d |}, Continue)
  else if in_range 0xE0 0xEF byte then
    ({| code_point := Z.land byte 0xF; bytes_seen := bytes_seen d;
        bytes_needed := 2;
        lower_boundary := if byte =? 0xE0 then 0xA0 else lower_boundary d;
        upper_boundary := if byte =? 0xED then 0x9F else upper_boundary d |},
     Continue)
  else if in_range 0xF0 0xF4 byte then
    ({| code_point := Z.land byte 0x7; bytes_seen := bytes_seen d;
        bytes_needed := 3;
        lower_boundary := if byte =? 0xF0 then 0x90 else lower_boundary d;
        upper_boundary := if byte =? 0xF4 then 0x8F else upper_boundary d |},
     Continue)
  else (d, Error).

(** The handler on one byte.  A byte outside the boundaries ends the pending
    character with an error, resets the decoder and is then read again, as a
    lead byte. *)
Definition handler (d : utf8) (byte : Z) : utf8 * list result :=
  if bytes_needed d =? 0 then
    let (d', r) := lead d byte in (d', [r])
  else if negb (in_range (lower_boundary d) (upper_boundary d) byte) then
    let (d', r) := lead utf8_init byte in (d', [Error; r])
  else
    let cp := Z.lor (Z.shiftl (code_point d) 6) (Z.land byte 0x3F) in
    let seen := bytes_seen d + 1 in
    if seen =? bytes_needed d
    then (utf8_init, [Scalar cp])
    else ({| code_point := cp; bytes_seen := seen;
             bytes_needed := bytes_needed d;
             lower_boundary := 0x80; upper_boundary := 0xBF |}, [Continue]).

Definition scalar_of (r : result) : list Z :=
  match r with
  | Continue => []
  | Error => [0xFFFD]
  | Scalar cp => [cp]
  end.

(** The bytes of one call through the handler; the end of the queue is not
    signalled in streaming mode, so a pending character stays pending. *)
Fixpoint run (d : utf8) (input : list byte) : utf8 * list Z :=
  match input with
  | [] => (d, [])
  | b :: input' =>
      let (d1, rs) := handler d (Z.of_N (Byte.to_N b)) in
      let (d2, out) := run d1 input' in
      (d2, flat_map scalar_of rs ++ out)
  end.

(** A scalar value as UTF-16 code units. *)
Definition code_units (cp : Z) : jsstring :=
  if cp <=? 0xFFFF then [cp]
  else [0xD800 + Z.shiftr (cp - 0x10000) 10;
        0xDC00 + Z.land (cp - 0x10000) 0x3FF].

(** Serialising the output of a call: the very first scalar value of the
    stream is dropped when it is the byte order mark ([ignoreBOM] is off). *)
Fixpoint serialize (bom_seen : bool) (output : list Z) : bool * jsstring :=
  match output with
  | [] => (bom_seen, [])
  | item :: output' =>
      if negb bom_seen && (item =? 0xFEFF) then serialize true output'
      else
        let (b, s) := serialize true output' in (b, code_units item ++ s)
  end.

Record t := { decoder : utf8; BOM_seen : bool }.

(** [new TextDecoder('utf-8')] *)
Definition new : t := {| decoder := utf8_init; BOM_seen := false |}.

(** [d.decode(value, { stream: true })]: the decoder afterwards and the text
    returned. *)
Definition decode (d : t) (value : list byte) : t * jsstring :=
  let (u, output) := run (decoder d) value in
  let (b, s) := serialize (BOM_seen d) output in
  ({| decoder := u; BOM_seen := b |}, s).

End TextDecoder.

(* ================================================================== *)
(** * [startAgent]                                                     *)
(* ================================================================== *)

(** What [await reader.read()] settles with: a chunk of bytes, the end of the
    body, or a rejection (a transport failure, or the abort of
    [stopAgent]) with the message of the error. *)
Inductive read_result :=
| ReadValue (value : list byte)
| ReadDone
| ReadReject (message : jsstring).

(** What [await fetch(...)] settles with.  [body] is [None] for a response
    without a body; otherwise it lists what the successive [read()] calls of
    its reader settle with.  A read behind the end of the list never
    settles. *)
Inductive fetch_result :=
| FetchReject (message : jsstring)
| FetchResponse (ok : bool) (body : option (list read_result)).

(** How a run of the handler stands: it returned before doing anything, it is
    suspended at an [await] that has not settled, its [try] block ran to the
    end, or its [catch] block ran with the error. *)
Inductive completion :=
| NotStarted
| Awaiting
| Completed
| Caught (message : jsstring).

(** The state of the component. *)
Record AgentBox := {
  prompt : jsstring;
  streaming : bool;
  events : list json
}.

(** The variables of the read loop. *)
Record stream := {
  decoder : TextDecoder.t;
  buffer : jsstring
}.

Definition stream_init : stream :=
  {| decoder := TextDecoder.new; buffer := [] |}.

(** The frame carries the termination sentinel. *)
Definition is_sentinel (chunk : jsstring) : bool :=
  match data_line chunk with
  | Some line => eqb (strip_marker line) (lit "[DONE]")
  | None => false
  end.

(** No frame but the last carries the sentinel: the stream says at most once
    that it is over, with its final frame. *)
Definition sentinel_last (parts : list jsstring) : bool :=
  forallb (fun chunk => negb (is_sentinel chunk)) (removelast parts).

(** The frames a chunk closes in the state [st]: the [parts] the frame loop
    runs on. *)
Definition frames (st : stream) (value : list byte) : list jsstring :=
  snd (pop (split (buffer st ++ snd (TextDecoder.decode (decoder st) value))
                  [LF; LF])).

(** The variables of the read loop after the chunk. *)
Definition next_stream (st : stream) (value : list byte) : stream :=
  let (d, text) := TextDecoder.decode (decoder st) value in
  {| decoder := d;
     buffer := or_empty (fst (pop (split (buffer st ++ text) [LF; LF]))) |}.

Section Agent.

Variable JSON_parse : jsstring -> option json.

(** The body of the [while] loop for one chunk [value]: decode, cut at the
    blank lines, keep the last piece as the new buffer, run the frame loop on
    the others. *)
Definition feed (st : stream) (events : list json) (value : list byte)
  : stream * list json :=
  let (d, text) := TextDecoder.decode (decoder st) value in
  let buffer := buffer st ++ text in
  let (last_part, parts) := pop (split buffer [LF; LF]) in
  ({| decoder := d; buffer := or_empty last_part |},
   for_parts JSON_parse parts events).

(** [while (true) { const { done, value } = await reader.read(); ... }].
    [reads] counts the [read()] calls. *)
Fixpoint read_loop (body : list read_result) (st : stream)
    (events : list json) (reads : nat) : list json * nat * completion :=
  match body with
  | [] => (events, S reads, Awaiting)
  | ReadDone :: _ => (events, S reads, Completed)
  | ReadReject message :: _ => (events, S reads, Caught message)
  | ReadValue value :: body' =>
      let (st', events') := feed st events value in
      read_loop body' st' events' (S reads)
  end.

(** [!res.body] *)
Definition no_body (body : option (list read_result)) : bool :=
  match body with
  | Some _ => false
  | None => true
  end.

(** The chunks of a body through the loop, from the first to the last. *)
Fixpoint feed_all (st : stream) (events : list json)
    (chunks : list (list byte)) : stream * list json :=
  match chunks with
  | [] => (st, events)
  | value :: chunks' =>
      let (st', events') := feed st events value in
      feed_all st' events' chunks'
  end.

(** The [try] block: the request, the test of the response, the read loop. *)
Definition try_block (net : fetch_result) (events : list json)
  : list json * nat * completion :=
  match net with
  | FetchReject message => (events, O, Caught message)
  | FetchResponse ok body =>
      if negb ok || no_body body
      then (events, O, Caught (lit "Failed to start stream"))
      else
        match body with
        | Some rs => read_loop rs stream_init events O
        | None => (events, O, Caught (lit "res.body is null"))
        end
  end.

(** The result of a run: the component, the number of [read()] calls made and
    where the handler stands. *)
Record run := {
  box : AgentBox;
  reads : nat;
  exit : completion
}.

(** [startAgent]: nothing for a blank prompt; otherwise the log is emptied,
    [streaming] is raised, the [try] block runs, the [catch] block appends
    the error event and the [finally] block lowers [streaming]. *)
Definition startAgent (a : AgentBox) (net : fetch_result) : run :=
  match trim (prompt a) with
  | [] => {| box := a; reads := O; exit := NotStarted |}
  | _ :: _ =>
      let '(events, n, c) := try_block net [] in
      match c with
      | Caught message =>
          {| box := {| prompt := prompt a; streaming := false;
                       events := events ++ [error_event message] |};
             reads := n; exit := c |}
      | Awaiting =>
          {| box := {| prompt := prompt a; streaming := true;
                       events := events |};
             reads := n; exit := c |}
      | Completed | NotStarted =>
          {| box := {| prompt := prompt a; streaming := false;
                       events := events |};
             reads := n; exit := c |}
      end
  end.

End Agent.

(* ================================================================== *)
(** * [handleFiles]                                                    *)
(* ================================================================== *)

(** A [File] object.  [ref] stands for the identity of the object: [===] on
    two files compares it, whatever their names. *)
Record File := { ref : nat; name : jsstring }.

Inductive upload_status := queued | uploading | done | error.

(** [{ file, status }] *)
Record UploadItem := { file : File; status : upload_status }.

(** [a === b] on file objects. *)
Definition same_file (a b : File) : bool := Nat.eqb (ref a) (ref b).

(** [prev.map(u => u.file === f ? { ...u, status: s } : u)] *)
Definition set_status (f : File) (s : upload_status)
    (prev : list UploadItem) : list UploadItem :=
  map (fun u => if same_file (file u) f
                then {| file := file u; status := s |} else u) prev.

(** [files.map(f => ({ file: f, status: 'queued' }))] *)
Definition new_items (files : list File) : list UploadItem :=
  map (fun f => {| file := f; status := queued |}) files.

(** [setUploads(prev => [...items, ...prev])] *)
Definition enqueue (files : list File) (prev : list UploadItem)
  : list UploadItem :=
  new_items files ++ prev.

(** What the upload of one file settles with: [fetch] rejects, or it resolves
    with a response, whose [ok] flag is given, and [res.json()] resolves
    ([parsed]) or rejects. *)
Inductive ingest_result :=
| IngestReject
| IngestResponse (ok parsed : bool).

(** The [try] block reaches its last statement. *)
Definition succeeded (r : ingest_result) : bool :=
  match r with
  | IngestReject => false
  | IngestResponse ok parsed => ok && parsed
  end.

(** The status an upload ends with. *)
Definition final_status (r : ingest_result) : upload_status :=
  if succeeded r then done else error.

(** What a run of the handler does, in order. *)
Inductive effect :=
| SetUploads (uploads : list UploadItem)  (* the list after a [setUploads] *)
| Fetch (f : File) (title : jsstring)     (* POST /ingest is issued *)
| Settled (r : ingest_result).            (* the awaited upload settled *)

(** [for (const item of items) { ... }].  [net] lists what the uploads settle
    with, in the order they are issued; an upload behind the end of the list
    never settles and the loop stays at its [await]. *)
Fixpoint upload_loop (items : list UploadItem) (net : list ingest_result)
    (uploads : list UploadItem) : list UploadItem * list effect :=
  match items with
  | [] => (uploads, [])
  | item :: items' =>
      let u1 := set_status (file item) uploading uploads in
      let request := Fetch (file item) (name (file item)) in
      match net with
      | [] => (u1, [SetUploads u1; request])
      | r :: net' =>
          let u2 := set_status (file item) (final_status r) u1 in
          let (u, trace) := upload_loop items' net' u2 in
          (u, SetUploads u1 :: request :: Settled r :: SetUploads u2 :: trace)
      end
  end.

(** [handleFiles(files)]: the list at the end and the trace of the run. *)
Definition handleFiles (files : list File) (net : list ingest_result)
    (uploads : list UploadItem) : list UploadItem * list effect :=
  let items := new_items files in
  let u0 := enqueue files uploads in
  let (u, trace) := upload_loop items net u0 in
  (u, SetUploads u0 :: trace).

(** The requests of a trace, in the order they were issued. *)
Fixpoint requests (trace : list effect) : list File :=
  match trace with
  | [] => []
  | Fetch f _ :: trace' => f :: requests trace'
  | _ :: trace' => requests trace'
  end.

(** The successive values of the list. *)
Fixpoint snapshots (trace : list effect) : list (list UploadItem) :=
  match trace with
  | [] => []
  | SetUploads u :: trace' => u :: snapshots trace'
  | _ :: trace' => snapshots trace'
  end.

(** The number of uploads in flight after each step of a trace, from [n] in
    flight before it. *)
Fixpoint in_flight (n : nat) (trace : list effect) : list nat :=
  match trace with
  | [] => []
  | Fetch _ _ :: trace' => S n :: in_flight (S n) trace'
  | Settled _ :: trace' => Nat.pred n :: in_flight (Nat.pred n) trace'
  | SetUploads _ :: trace' => n :: in_flight n trace'
  end.

(** The status of the entry at index [i]. *)
Definition status_at (i : nat) (uploads : list UploadItem)
  : option upload_status :=
  option_map status (nth_error uploads i).

(* ================================================================== *)
(** * [runQuery]                                                       *)
(* ================================================================== *)

(** What [await res.json()] settles with. *)
Inductive json_result :=
| JsonReject (message : jsstring)
| JsonResolve (data : json).

(** What the request settles with: [fetch] rejects, or it resolves with a
    response, whose [ok] flag is given and whose [json()] settles with
    [body]. *)
Inductive query_result :=
| QueryReject (message : jsstring)
| QueryResponse (ok : bool) (body : json_result).

Fixpoint lookup (key : jsstring) (members : list (jsstring * json))
  : option json :=
  match members with
  | [] => None
  | (k, v) :: members' => if eqb k key then Some v else lookup key members'
  end.

(** [data.results]: a [TypeError] on [null], [undefined] (the inner [None])
    where there is no such property. *)
Definition get_results (data : json) : jsstring + option json :=
  match data with
  | JNull => inl (lit "Cannot read properties of null (reading 'results')")
  | JObj members => inr (lookup (lit "results") members)
  | _ => inr None
  end.

(** The decimal denotes a number that rounds to the double zero: it is zero,
    or at most half the least positive double, [2^-1075]. *)
Definition rounds_to_zero (n : decimal) : bool :=
  (digits n =? 0)
  || ((exponent n <? 0) && (digits n * 2 ^ 1075 <=? 10 ^ (- exponent n))).

(** [x || []] *)
Definition or_empty_array (x : option json) : json :=
  match x with
  | None => JArr []
  | Some JNull => JArr []
  | Some (JBool false) => JArr []
  | Some (JStr []) => JArr []
  | Some (JNum n) => if rounds_to_zero n then JArr [] else JNum n
  | Some v => v
  end.

(** The query state of the component. *)
Record QueryState := {
  queryLoading : bool;
  results : json
}.

(** The [try] block of [runQuery]: the new [results], or the error thrown.
    [res.ok] is not read. *)
Definition query_try (net : query_result) : jsstring + json :=
  match net with
  | QueryReject message => inl message
  | QueryResponse _ (JsonReject message) => inl message
  | QueryResponse _ (JsonResolve data) =>
      match get_results data with
      | inl message => inl message
      | inr r => inr (or_empty_array r)
      end
  end.

(** [runQuery(q)]: the state at the end and what [console.error] printed.
    The handler catches every error itself, so that its promise resolves in
    all cases. *)
Definition runQuery (q : jsstring) (net : query_result) (a : QueryState)
  : QueryState * list jsstring :=
  let loading := {| queryLoading := true; results := JArr [] |} in
  match query_try net with
  | inr r => ({| queryLoading := false; results := r |}, [])
  | inl message =>
      ({| queryLoading := false; results := results loading |}, [message])
  end.

(** The [try] block of [runQuery] throws: [fetch] rejects, [res.json()]
    rejects because the body is not JSON, or reading [results] off the JSON
    [null] throws.  A response that is not a success does not throw. *)
Definition query_throws (net : query_result) : bool :=
  match net with
  | QueryReject _ => true
  | QueryResponse _ (JsonReject _) => true
  | QueryResponse _ (JsonResolve JNull) => true
  | QueryResponse _ (JsonResolve _) => false
  end.

(* ================================================================== *)
(** * Sample inputs                                                    *)
(* ================================================================== *)

(** The bytes of an ASCII text written with apostrophes for its double
    quotes. *)
Definition bytes (s : string) : list byte :=
  map (fun b => if Byte.eqb b x27 then x22 else b) (list_byte_of_string s).

(** A frame of the wire: the text and the blank line that closes it. *)
Definition frame (s : string) : list byte := bytes s ++ [x0a; x0a].

Definition status_hi : json :=
  JObj [(lit "type", JStr (lit "status")); (lit "value", JStr (lit "hi"))].

Definition frame_status_hi : list byte :=
  frame "data: {'type':'status','value':'hi'}".

Definition frame_done : list byte := frame "data: [DONE]".

(** A body of three frames cut into four chunks: inside the two bytes of a
    character, inside a blank line and inside the sentinel. *)
Definition sample_chunks : list (list byte) :=
  [ bytes "data: {'type':'status','value':'caf" ++ [xc3];
    [xa9] ++ bytes "'}" ++ [x0a];
    [x0a] ++ frame "data: {'type':'final','answer':'ok'}" ++ bytes "data: [DO";
    frame "NE]" ].

(** Frames as the loop sees them: a well-formed one, one whose JSON is cut
    short, and the sentinel. *)
Definition part_status_hi : jsstring :=
  dq "data: {'type':'status','value':'hi'}".
Definition part_malformed : jsstring := dq "data: {'type':'status'".
Definition part_done : jsstring := lit "data: [DONE]".

Definition agent_idle : AgentBox :=
  {| prompt := lit "what is in my documents?"; streaming := false;
     events := [] |}.

Definition abort_message : jsstring := lit "The user aborted a request.".

Definition file_a : File := {| ref := 1; name := lit "a.pdf" |}.
Definition file_b : File := {| ref := 2; name := lit "b.pdf" |}.
Definition file_c : File := {| ref := 3; name := lit "c.pdf" |}.

(* ================================================================== *)
(** * [handleAsk] and further observations                             *)
(* ================================================================== *)

(** [handleAsk] of [QueryBox], whose [onQuery] is [runQuery]: a query that
    is blank after [trim] is not submitted. *)
Definition handleAsk (q : jsstring) (net : query_result) (a : QueryState)
  : QueryState * list jsstring :=
  match trim q with
  | [] => (a, [])
  | _ :: _ => runQuery q net a
  end.

(** [pieces.join(sep)] *)
Fixpoint join (sep : jsstring) (pieces : list jsstring) : jsstring :=
  match pieces with
  | [] => []
  | p :: rest =>
      match rest with
      | [] => p
      | _ :: _ => p ++ sep ++ join sep rest
      end
  end.

(** The text has a blank line: two line feeds in a row. *)
Fixpoint has_blank_line (s : jsstring) : bool :=
  match s with
  | [] => false
  | _ :: s' => startsWith s [LF; LF] || has_blank_line s'
  end.

(** The text has no line feed. *)
Definition one_line (s : jsstring) : bool :=
  forallb (fun c => negb (c =? LF)) s.

(** The value of a byte, and the text of bytes that are all ASCII. *)
Definition byte_value (b : byte) : Z := Z.of_N (Byte.to_N b).
Definition is_ascii (b : byte) : bool := byte_value b <? 0x80.
Definition ascii_text (value : list byte) : jsstring := map byte_value value.

(** Further sample inputs. *)
Definition part_no_marker : jsstring := lit ": keep-alive".
Definition part_two_lines : jsstring :=
  lit "data: [DONE]" ++ [LF] ++ dq "data: {'type':'status','value':'hi'}".
Definition payload_final : list byte := bytes "{'type':'final','answer':'ok'}".
Definition final_ok : json :=
  JObj [(lit "type", JStr (lit "final")); (lit "answer", JStr (lit "ok"))].
Definition query_idle : QueryState :=
  {| queryLoading := false; results := JArr [JStr (lit "stale")] |}.

(** The body [{"results":[{"score":0.92,"content":"cats are great"}]}],
    parsed. *)
Definition cats_result : json :=
  JObj [ (lit "score", JNum {| neg := false; digits := 92; exponent := -2 |});
         (lit "content", JStr (lit "cats are great")) ].
Definition cats_data : json := JObj [(lit "results", JArr [cats_result])].

(* ================================================================== *)
(** * The platform functions on small inputs                           *)
(* ================================================================== *)

(** ['a\n\n\nb\n\n'.split('\n\n')] is [['a', '\nb', '']]: the scan goes on
    behind a separator, it does not look back into it. *)
Example split_three_line_feeds :
  split (lit "a" ++ [LF; LF; LF] ++ lit "b" ++ [LF; LF]) [LF; LF]
  = [lit "a"; LF :: lit "b"; []].
Proof. reflexivity. Qed.

Example split_empty_text : split [] [LF; LF] = [[]].
Proof. reflexivity. Qed.

Example split_empty_separator : split (lit "abc") [] = [lit "a"; lit "b"; lit "c"].
Proof. reflexivity. Qed.

Example trim_both_ends :
  trim ([32; LF; 9] ++ lit "a b" ++ [13; 0xA0]) = lit "a b".
Proof. reflexivity. Qed.

Example data_line_second_line :
  data_line (lit "event: message" ++ [LF] ++ lit "data: [DONE]" ++ [LF])
  = Some (lit "data: [DONE]").
Proof. reflexivity. Qed.

Example strip_marker_spaces : strip_marker (lit "data:   [DONE]") = lit "[DONE]".
Proof. reflexivity. Qed.

(** The two bytes of U+00E9 in two calls: nothing after the first, the
    character after the second. *)
Example decode_split_character :
  let (d, s1) := TextDecoder.decode TextDecoder.new [xc3] in
  s1 = [] /\ snd (TextDecoder.decode d [xa9]) = [0xE9].
Proof. vm_compute. split; reflexivity. Qed.

(** A byte order mark is dropped, U+1F600 becomes a surrogate pair, the
    three bytes of an encoded surrogate and a lead byte without its
    continuation become U+FFFD each. *)
Example decode_bom_astral_invalid :
  snd (TextDecoder.decode TextDecoder.new
         [xef; xbb; xbf; xf0; x9f; x98; x80; xed; xa0; x80; xc3; x28])
  = [0xD83D; 0xDE00; 0xFFFD; 0xFFFD; 0xFFFD; 0xFFFD; 0x28].
Proof. vm_compute. reflexivity. Qed.

Example parse_object :
  JSON.parse (dq " {'type':'retrieved', 'count': 3, 'ok':[true,null,-1.5e3]} ")
  = Some (JObj [ (lit "type", JStr (lit "retrieved"));
                 (lit "count",
                  JNum {| neg := false; digits := 3; exponent := 0 |});
                 (lit "ok",
                  JArr [ JBool true; JNull;
                         JNum {| neg := true; digits := 15;
                                 exponent := 2 |} ]) ]).
Proof. vm_compute. reflexivity. Qed.

Example parse_escapes :
  JSON.parse (dq "'a\nA\/'") = Some (JStr [97; 10; 65; 47]).
Proof. vm_compute. reflexivity. Qed.

Example parse_repeated_key :
  JSON.parse (dq "{'a':1,'b':2,'a':3}")
  = Some (JObj [ (lit "a", JNum {| neg := false; digits := 3; exponent := 0 |});
                 (lit "b", JNum {| neg := false; digits := 2; exponent := 0 |}) ]).
Proof. vm_compute. reflexivity. Qed.

Example parse_rejects :
  map JSON.parse
    [ []; lit "[DONE]"; lit "01"; lit "[1,]"; dq "{'a':1,}"; lit "1 2";
      lit "tru"; dq "{'type':'status'"; dq "'a"; lit "[[]"; lit "1.";
      lit "-"; lit "+1"; lit ".5"; lit "nullx" ]
  = repeat None 15.
Proof. vm_compute. reflexivity. Qed.

(* ================================================================== *)
(** * Properties of [split]                                            *)
(* ================================================================== *)

Section SplitFacts.

Variable sep : jsstring.

Lemma startsWith_length s : startsWith s sep = true ->
  (List.length sep <= List.length s)%nat.
Proof.
  revert s. induction sep as [|x p IH]; intros [|y s'] H; simpl in *;
    try lia; try discriminate.
  apply andb_true_iff in H as [_ H]. apply IH in H. lia.
Qed.

Lemma startsWith_app s t : startsWith s sep = true ->
  startsWith (s ++ t) sep = true.
Proof.
  revert s. induction sep as [|x p IH]; intros [|y s'] H; simpl in *;
    try reflexivity; try discriminate.
  - now destruct t.
  - apply andb_true_iff in H as [Hxy H].
    rewrite Hxy. simpl. now apply IH.
Qed.

(** A separator that starts inside [s] but does not end there is longer than
    what is left of [s]. *)
Lemma startsWith_straddle s t :
  startsWith s sep = false -> startsWith (s ++ t) sep = true ->
  (List.length s < List.length sep)%nat.
Proof.
  revert s. induction sep as [|x p IH]; intros [|y s'] H1 H2; simpl in *;
    try discriminate; try lia.
  apply andb_true_iff in H2 as [Hxy H2]. rewrite Hxy in H1. simpl in H1.
  specialize (IH _ H1 H2). lia.
Qed.

Lemma split_scan_not_nil s k : split_scan sep s k <> [].
Proof.
  revert k. induction s as [|c s IH]; intros k; cbn [split_scan].
  - discriminate.
  - destruct k as [|k]; [|apply IH].
    destruct (startsWith (c :: s) sep); [discriminate|].
    specialize (IH O). destruct (split_scan sep s 0); [contradiction|].
    discriminate.
Qed.

(** A scan that finds one piece found no separator. *)
Lemma split_scan_single s x : split_scan sep s 0 = [x] -> x = s.
Proof.
  revert x. induction s as [|c s IH]; intros x H; cbn [split_scan] in H.
  - now inversion H.
  - destruct (startsWith (c :: s) sep).
    + inversion H as [[Hx Hs]]. now apply split_scan_not_nil in Hs.
    + destruct (split_scan sep s 0) as [|p [|q ps]] eqn:E; simpl in H.
      * now apply split_scan_not_nil in E.
      * inversion H. f_equal. now apply IH.
      * discriminate.
Qed.

(** No separator fits in a text shorter than it. *)
Lemma split_scan_short s :
  (List.length s < List.length sep)%nat -> split_scan sep s 0 = [s].
Proof.
  induction s as [|c s IH]; intros Hlen; cbn [split_scan].
  - reflexivity.
  - destruct (startsWith (c :: s) sep) eqn:E.
    + apply startsWith_length in E. simpl in *. lia.
    + rewrite IH by (simpl in Hlen; lia). reflexivity.
Qed.

(** The scan of [s ++ t] closes the pieces the scan of [s] closes and goes on
    from its last, open piece. *)
Lemma split_scan_app s t k : (k <= List.length s)%nat ->
  split_scan sep (s ++ t) k
  = removelast (split_scan sep s k)
    ++ split_scan sep (last (split_scan sep s k) [] ++ t) 0.
Proof.
  revert k. induction s as [|c s IH]; intros k Hk.
  - assert (k = O) by (simpl in Hk; lia). subst. reflexivity.
  - destruct k as [|k].
    + cbn [app split_scan].
      destruct (startsWith (c :: s) sep) eqn:E.
      * change (c :: s ++ t) with ((c :: s) ++ t).
        rewrite (startsWith_app _ t E).
        pose proof (startsWith_length _ E) as Hlen. simpl in Hlen.
        rewrite IH by lia.
        pose proof (split_scan_not_nil s (Nat.pred (List.length sep))) as Hne.
        destruct (split_scan sep s (Nat.pred (List.length sep)))
          as [|p ps] eqn:Es; [contradiction|].
        reflexivity.
      * change (c :: s ++ t) with ((c :: s) ++ t).
        destruct (startsWith ((c :: s) ++ t) sep) eqn:E'.
        -- pose proof (startsWith_straddle _ _ E E') as Hlen.
           rewrite split_scan_short by (simpl in Hlen; lia).
           cbn [cons_head removelast last app split_scan].
           change (c :: s ++ t) with ((c :: s) ++ t). rewrite E'.
           reflexivity.
        -- destruct (split_scan sep s 0) as [|p [|q ps]] eqn:Es.
           ++ now apply split_scan_not_nil in Es.
           ++ apply split_scan_single in Es. subst p.
              cbn [cons_head removelast last app split_scan].
              change (c :: s ++ t) with ((c :: s) ++ t). rewrite E'.
              reflexivity.
           ++ rewrite IH by lia. rewrite Es. reflexivity.
    + cbn [app split_scan]. rewrite IH by (simpl in Hk; lia). reflexivity.
Qed.

End SplitFacts.

(** [split] on the blank line, through an append. *)
Lemma split_app s t sep : sep <> [] ->
  split (s ++ t) sep
  = removelast (split s sep) ++ split (last (split s sep) [] ++ t) sep.
Proof.
  intros Hsep. destruct sep as [|x sep']; [contradiction|].
  unfold split. apply split_scan_app. lia.
Qed.

Lemma split_not_nil s sep : sep <> [] -> split s sep <> [].
Proof.
  intros Hsep. destruct sep as [|x sep']; [contradiction|].
  apply split_scan_not_nil.
Qed.

Lemma last_cons {A} (x : A) (a : list A) (d : A) :
  last (x :: a) d = last a x.
Proof.
  revert x d. induction a as [|y a IH]; intros x d.
  - reflexivity.
  - change (last (x :: y :: a) d) with (last (y :: a) d).
    now rewrite !IH.
Qed.

Lemma pop_not_nil {A} (a : list A) (d : A) : a <> [] ->
  pop a = (Some (last a d), removelast a).
Proof.
  destruct a as [|x a']; [contradiction|]. intros _. unfold pop.
  now rewrite last_cons.
Qed.

Lemma or_empty_some (s : jsstring) : or_empty (Some s) = s.
Proof. now destruct s. Qed.

(* ================================================================== *)
(** * The decoder is a homomorphism on chunks                          *)
(* ================================================================== *)

Lemma run_app d a b :
  TextDecoder.run d (a ++ b)
  = let (d1, o1) := TextDecoder.run d a in
    let (d2, o2) := TextDecoder.run d1 b in
    (d2, o1 ++ o2).
Proof.
  revert d. induction a as [|x a IH]; intros d; cbn [app TextDecoder.run].
  - now destruct (TextDecoder.run d b).
  - destruct (TextDecoder.handler d (Z.of_N (Byte.to_N x))) as [d1 rs].
    rewrite IH. destruct (TextDecoder.run d1 a) as [d2 o2].
    destruct (TextDecoder.run d2 b) as [d3 o3].
    now rewrite app_assoc.
Qed.

Lemma serialize_app seen o1 o2 :
  TextDecoder.serialize seen (o1 ++ o2)
  = let (b1, s1) := TextDecoder.serialize seen o1 in
    let (b2, s2) := TextDecoder.serialize b1 o2 in
    (b2, s1 ++ s2).
Proof.
  revert seen. induction o1 as [|x o1 IH]; intros seen;
    cbn [app TextDecoder.serialize].
  - now destruct (TextDecoder.serialize seen o2).
  - destruct (negb seen && (x =? 65279)).
    + apply IH.
    + rewrite IH. destruct (TextDecoder.serialize true o1) as [b1 s1].
      destruct (TextDecoder.serialize b1 o2) as [b2 s2].
      now rewrite app_assoc.
Qed.

(** Decoding [a ++ b] in one call gives the decoder and the text of decoding
    [a] and then [b]: the bytes of a character may fall on both sides. *)
Lemma decode_app d a b :
  TextDecoder.decode d (a ++ b)
  = let (d1, s1) := TextDecoder.decode d a in
    let (d2, s2) := TextDecoder.decode d1 b in
    (d2, s1 ++ s2).
Proof.
  unfold TextDecoder.decode. rewrite run_app.
  destruct (TextDecoder.run (TextDecoder.decoder d) a) as [u1 o1].
  destruct (TextDecoder.serialize (TextDecoder.BOM_seen d) o1) as [b1 s1] eqn:E1.
  cbn [TextDecoder.decoder TextDecoder.BOM_seen].
  destruct (TextDecoder.run u1 b) as [u2 o2].
  rewrite serialize_app, E1.
  now destruct (TextDecoder.serialize b1 o2).
Qed.

(* ================================================================== *)
(** * Frames across chunks                                             *)
(* ================================================================== *)

Lemma last_app_not_nil {A} (a b : list A) (d : A) : b <> [] ->
  last (a ++ b) d = last b d.
Proof.
  intros Hb. induction a as [|x a IH]; [reflexivity|].
  cbn [app]. destruct (a ++ b) eqn:E.
  - apply app_eq_nil in E as [_ E]. contradiction.
  - rewrite <- E, <- IH. rewrite E. reflexivity.
Qed.

Lemma blank_line_not_nil : [LF; LF] <> [].
Proof. discriminate. Qed.

(** [feed] is the frame loop on the frames the chunk closes. *)
Lemma feed_eq JSON_parse st events value :
  feed JSON_parse st events value
  = (next_stream st value, for_parts JSON_parse (frames st value) events).
Proof.
  unfold feed, next_stream, frames.
  destruct (TextDecoder.decode (decoder st) value) as [d text].
  cbn [snd].
  now destruct (pop (split (buffer st ++ text) [LF; LF])).
Qed.

Lemma frames_removelast st value :
  frames st value
  = removelast (split (buffer st
                       ++ snd (TextDecoder.decode (decoder st) value))
                      [LF; LF]).
Proof.
  unfold frames.
  now rewrite (pop_not_nil _ ([] : jsstring)) by (apply split_not_nil, blank_line_not_nil).
Qed.

Lemma next_stream_buffer st value :
  buffer (next_stream st value)
  = last (split (buffer st ++ snd (TextDecoder.decode (decoder st) value))
                [LF; LF]) [].
Proof.
  unfold next_stream.
  destruct (TextDecoder.decode (decoder st) value) as [d text].
  cbn [buffer snd].
  rewrite (pop_not_nil _ ([] : jsstring)) by (apply split_not_nil, blank_line_not_nil).
  apply or_empty_some.
Qed.

Lemma next_stream_decoder st value :
  decoder (next_stream st value)
  = fst (TextDecoder.decode (decoder st) value).
Proof.
  unfold next_stream.
  now destruct (TextDecoder.decode (decoder st) value).
Qed.

(** The frames closed by [a ++ b] are those closed by [a] and then those
    closed by [b]. *)
Lemma frames_app st a b :
  frames st (a ++ b) = frames st a ++ frames (next_stream st a) b.
Proof.
  rewrite !frames_removelast, next_stream_buffer, next_stream_decoder.
  rewrite decode_app.
  destruct (TextDecoder.decode (decoder st) a) as [d1 s1]. cbn [fst snd].
  destruct (TextDecoder.decode d1 b) as [d2 s2]. cbn [fst snd].
  rewrite app_assoc, (split_app _ s2) by apply blank_line_not_nil.
  apply removelast_app, split_not_nil, blank_line_not_nil.
Qed.

(** The state after [a ++ b] is the state after [a] and then [b]. *)
Lemma next_stream_app st a b :
  next_stream st (a ++ b) = next_stream (next_stream st a) b.
Proof.
  assert (E : forall x y : stream,
             decoder x = decoder y -> buffer x = buffer y -> x = y).
  { intros [] [] H1 H2; cbn in *; now subst. }
  apply E.
  - rewrite !next_stream_decoder, decode_app.
    destruct (TextDecoder.decode (decoder st) a) as [d1 s1]. cbn [fst].
    now destruct (TextDecoder.decode d1 b).
  - rewrite !next_stream_buffer, next_stream_decoder, decode_app.
    destruct (TextDecoder.decode (decoder st) a) as [d1 s1]. cbn [fst snd].
    destruct (TextDecoder.decode d1 b) as [d2 s2]. cbn [fst snd].
    rewrite app_assoc, (split_app _ s2) by apply blank_line_not_nil.
    apply last_app_not_nil, split_not_nil, blank_line_not_nil.
Qed.

(* ================================================================== *)
(** * The frame loop                                                   *)
(* ================================================================== *)

Section FrameLoop.

Variable JSON_parse : jsstring -> option json.

(** The loop stops at a frame with the sentinel. *)
Lemma for_parts_sentinel chunk rest events :
  is_sentinel chunk = true ->
  for_parts JSON_parse (chunk :: rest) events = events ++ [done_event].
Proof.
  unfold is_sentinel. cbn [for_parts].
  destruct (data_line chunk) as [line|]; [|discriminate].
  now intros ->.
Qed.

(** Without the sentinel the loop goes through: two runs are one. *)
Lemma for_parts_app p1 p2 events :
  forallb (fun chunk => negb (is_sentinel chunk)) p1 = true ->
  for_parts JSON_parse (p1 ++ p2) events
  = for_parts JSON_parse p2 (for_parts JSON_parse p1 events).
Proof.
  revert events. induction p1 as [|chunk p1 IH]; intros events H.
  - reflexivity.
  - cbn [forallb] in H. apply andb_true_iff in H as [Hc H].
    apply negb_true_iff in Hc. unfold is_sentinel in Hc.
    cbn [app for_parts].
    destruct (data_line chunk) as [line|]; [|now apply IH].
    rewrite Hc.
    destruct (JSON_parse (strip_marker line)); now apply IH.
Qed.

Lemma feed_all_cons st events value chunks :
  feed_all JSON_parse st events (value :: chunks)
  = feed_all JSON_parse (next_stream st value)
      (for_parts JSON_parse (frames st value) events) chunks.
Proof. cbn [feed_all]. now rewrite feed_eq. Qed.

(** Chunks fed one by one and their concatenation fed at once, from any
    state of the loop. *)
Lemma feed_all_concat chunks : chunks <> [] -> forall st events,
  sentinel_last (frames st (List.concat chunks)) = true ->
  feed_all JSON_parse st events chunks
  = feed JSON_parse st events (List.concat chunks).
Proof.
  induction chunks as [|c [|c' cs] IH]; intros Hne st events H.
  - contradiction.
  - cbn [List.concat feed_all]. rewrite app_nil_r.
    now destruct (feed JSON_parse st events c).
  - rewrite feed_all_cons.
    change (List.concat (c :: c' :: cs)) with (c ++ List.concat (c' :: cs)) in *.
    rewrite feed_eq, next_stream_app. rewrite frames_app in *.
    unfold sentinel_last in H.
    destruct (frames (next_stream st c) (List.concat (c' :: cs))) as [|f fs] eqn:E.
    + rewrite IH; [|discriminate|now rewrite E].
      now rewrite feed_eq, E, app_nil_r.
    + rewrite removelast_app in H by discriminate.
      rewrite forallb_app in H. apply andb_true_iff in H as [H1 H2].
      rewrite IH; [|discriminate|now rewrite E].
      now rewrite feed_eq, E, for_parts_app.
Qed.

End FrameLoop.

(** Nothing comes of the empty body. *)
Lemma feed_nothing JSON_parse events :
  feed JSON_parse stream_init events [] = (stream_init, events).
Proof. reflexivity. Qed.

(* ================================================================== *)
(** * The stream decoder: claims                                       *)
(* ================================================================== *)

(** The frames behind a sentinel in the same chunk are not looked at. *)
Lemma done_ends_the_chunk JSON_parse pre chunk post events :
  is_sentinel chunk = true ->
  for_parts JSON_parse (pre ++ chunk :: post) events
  = for_parts JSON_parse (pre ++ [chunk]) events.
Proof.
  intros Hs. revert events. induction pre as [|p pre IH]; intros events.
  - cbn [app]. now rewrite !for_parts_sentinel.
  - cbn [app for_parts]. destruct (data_line p) as [line|]; [|apply IH].
    destruct (eqb (strip_marker line) (lit "[DONE]")); [reflexivity|].
    destruct (JSON_parse (strip_marker line)); apply IH.
Qed.

(** C1 (the code at the failing input): the sentinel arrives in one chunk
    and a status frame in the next; the [break] leaves the frame loop only,
    the read loop goes on, and the status event is appended to the log
    behind the [done] event. *)
Theorem event_appended_after_done :
  events (box (startAgent JSON.parse agent_idle
                 (FetchResponse true
                    (Some [ReadValue frame_done; ReadValue frame_status_hi;
                           ReadDone]))))
  = [done_event; status_hi].
Proof. vm_compute. reflexivity. Qed.

(** With a frame behind the sentinel the log depends on where the body is
    cut: fed whole, the frame is discarded with the rest of its chunk; fed in
    two chunks, it is processed. *)
Lemma cut_matters_behind_the_sentinel :
  snd (feed JSON.parse stream_init [] (frame_done ++ frame_status_hi))
  = [done_event] /\
  snd (feed_all JSON.parse stream_init [] [frame_done; frame_status_hi])
  = [done_event; status_hi].
Proof. split; vm_compute; reflexivity. Qed.

(** C2 (the code at the failing input): a body of two well-formed frames,
    the sentinel and then a status frame.  Fed as one chunk, the [break] at
    the sentinel discards the status frame and the log is [done] alone; fed
    as two chunks cut at the frame boundary, the read loop goes on behind the
    [break] and the log is [done] and then the status event.  The two logs
    differ: the decoder is not split-invariant on this body. *)
Theorem split_changes_the_log :
  snd (feed JSON.parse stream_init []
         (List.concat [frame_done; frame_status_hi]))
  = [done_event] /\
  snd (feed_all JSON.parse stream_init [] [frame_done; frame_status_hi])
  = [done_event; status_hi] /\
  snd (feed_all JSON.parse stream_init [] [frame_done; frame_status_hi])
  <> snd (feed JSON.parse stream_init []
            (List.concat [frame_done; frame_status_hi])).
Proof.
  split; [vm_compute; reflexivity|]. split; [vm_compute; reflexivity|].
  vm_compute. discriminate.
Qed.

(** X17, split-invariance up to the sentinel: for a body in which no frame
    before the final one carries the sentinel, and for every way of cutting
    its bytes into chunks (inside a character, inside a frame, inside a blank
    line), the chunks fed one by one leave the same event log, and the same
    decoder and buffer, as the whole body fed as one chunk. *)
Theorem split_invariance JSON_parse (chunks : list (list byte))
    (events : list json) :
  sentinel_last (frames stream_init (List.concat chunks)) = true ->
  feed_all JSON_parse stream_init events chunks
  = feed JSON_parse stream_init events (List.concat chunks).
Proof.
  intros H. destruct chunks as [|c cs].
  - cbn [List.concat feed_all]. now rewrite feed_nothing.
  - now apply feed_all_concat.
Qed.

Lemma split_invariance_witness :
  sentinel_last (frames stream_init (List.concat sample_chunks)) = true /\
  feed_all JSON.parse stream_init [] sample_chunks
  = feed JSON.parse stream_init [] (List.concat sample_chunks).
Proof.
  split.
  - vm_compute. reflexivity.
  - apply (split_invariance JSON.parse sample_chunks []).
    vm_compute. reflexivity.
Defined.

(** C8, decode isolation: a frame whose payload is not the sentinel and does
    not parse adds no event, and the frames behind it, in the same chunk and
    in the chunks that follow, give their events as if it were not there. *)
Theorem decode_isolation JSON_parse pre chunk post line events :
  data_line chunk = Some line ->
  eqb (strip_marker line) (lit "[DONE]") = false ->
  JSON_parse (strip_marker line) = None ->
  for_parts JSON_parse [chunk] events = events /\
  for_parts JSON_parse (pre ++ chunk :: post) events
  = for_parts JSON_parse (pre ++ post) events /\
  forall st value rest,
    frames st value = pre ++ chunk :: post ->
    feed_all JSON_parse st events (value :: rest)
    = feed_all JSON_parse (next_stream st value)
        (for_parts JSON_parse (pre ++ post) events) rest.
Proof.
  intros Hline Hdone Hparse.
  assert (Hdrop : forall rest ev,
             for_parts JSON_parse (chunk :: rest) ev
             = for_parts JSON_parse rest ev).
  { intros rest ev. cbn [for_parts]. now rewrite Hline, Hdone, Hparse. }
  assert (Hmid : forall ev,
             for_parts JSON_parse (pre ++ chunk :: post) ev
             = for_parts JSON_parse (pre ++ post) ev).
  { induction pre as [|p pre IH]; intros ev.
    - apply Hdrop.
    - cbn [app for_parts]. destruct (data_line p) as [l|]; [|apply IH].
      destruct (eqb (strip_marker l) (lit "[DONE]")); [reflexivity|].
      destruct (JSON_parse (strip_marker l)); apply IH. }
  split; [apply Hdrop|]. split; [apply Hmid|].
  intros st value rest Hframes.
  now rewrite feed_all_cons, Hframes, Hmid.
Qed.

Lemma decode_isolation_witness :
  data_line part_malformed = Some part_malformed /\
  eqb (strip_marker part_malformed) (lit "[DONE]") = false /\
  JSON.parse (strip_marker part_malformed) = None /\
  for_parts JSON.parse [part_malformed] [] = [] /\
  for_parts JSON.parse [part_status_hi; part_malformed; part_done] []
  = for_parts JSON.parse [part_status_hi; part_done] [].
Proof.
  assert (H1 : data_line part_malformed = Some part_malformed)
    by (vm_compute; reflexivity).
  assert (H2 : eqb (strip_marker part_malformed) (lit "[DONE]") = false)
    by (vm_compute; reflexivity).
  assert (H3 : JSON.parse (strip_marker part_malformed) = None)
    by (vm_compute; reflexivity).
  destruct (decode_isolation JSON.parse [part_status_hi] part_malformed
              [part_done] part_malformed [] H1 H2 H3) as [Ha [Hb _]].
  repeat split; assumption.
Defined.

(** C9, the scenario of the specification: the status frame and then the
    sentinel frame give the status event and the [done] event, in this
    order. *)
Theorem scenario_status_then_done :
  snd (feed_all JSON.parse stream_init [] [frame_status_hi; frame_done])
  = [status_hi; done_event].
Proof. vm_compute. reflexivity. Qed.

(* ================================================================== *)
(** * The stream session: claims                                       *)
(* ================================================================== *)

(** The read loop takes the chunks that arrive one after the other. *)
Lemma read_loop_values JSON_parse chunks rest : forall st events n,
  read_loop JSON_parse (map ReadValue chunks ++ rest) st events n
  = read_loop JSON_parse rest
      (fst (feed_all JSON_parse st events chunks))
      (snd (feed_all JSON_parse st events chunks))
      (n + List.length chunks).
Proof.
  induction chunks as [|c cs IH]; intros st events n.
  - cbn. now rewrite Nat.add_0_r.
  - cbn [map app read_loop feed_all List.length].
    destruct (feed JSON_parse st events c) as [st' events'].
    rewrite IH. f_equal. lia.
Qed.

(** C3 as the code has it: when the body is cancelled behind the chunks
    [chunks], the next [read()] rejects with the abort error; the log then
    holds the events of the frames closed by [chunks], followed by one
    [error] event with the message of the abort; [streaming] is off; what the
    body would have delivered afterwards ([rest]) is never read.  The handler
    ends in its [catch] block, as for any other failure of a read: it keeps
    no state that tells a cancellation from an error. *)
Theorem cancel_appends_error JSON_parse a chunks message rest :
  trim (prompt a) <> [] ->
  startAgent JSON_parse a
    (FetchResponse true
       (Some (map ReadValue chunks ++ ReadReject message :: rest)))
  = {| box := {| prompt := prompt a; streaming := false;
                 events := snd (feed_all JSON_parse stream_init [] chunks)
                           ++ [error_event message] |};
       reads := S (List.length chunks);
       exit := Caught message |}.
Proof.
  intros Hp. unfold startAgent.
  destruct (trim (prompt a)) as [|c p]; [contradiction|].
  cbn [try_block negb orb no_body].
  rewrite read_loop_values. reflexivity.
Qed.

Lemma cancel_appends_error_witness :
  trim (prompt agent_idle) <> [] /\
  events (box (startAgent JSON.parse agent_idle
                 (FetchResponse true
                    (Some (map ReadValue [frame_status_hi]
                           ++ ReadReject abort_message
                              :: [ReadValue frame_done; ReadDone])))))
  = [status_hi; error_event abort_message].
Proof.
  split.
  - vm_compute. discriminate.
  - rewrite (cancel_appends_error JSON.parse agent_idle [frame_status_hi]
               abort_message [ReadValue frame_done; ReadDone]).
    + vm_compute. reflexivity.
    + vm_compute. discriminate.
Defined.

(** C3 as stated fails: one of two frames is processed, then the session is
    cancelled; the log is not the events of that one frame, it has an [error]
    event behind them. *)
Lemma cancel_log_has_more_than_the_frames :
  events (box (startAgent JSON.parse agent_idle
                 (FetchResponse true
                    (Some [ReadValue frame_status_hi;
                           ReadReject abort_message;
                           ReadValue frame_done; ReadDone]))))
  <> snd (feed_all JSON.parse stream_init [] [frame_status_hi]).
Proof. vm_compute. discriminate. Qed.

(** C7: a response that is not a success, or that has no body, gives exactly
    one [error] event, ends the handler in its [catch] block with
    [streaming] off, and no [read()] is made on the body. *)
Theorem unusable_response_errors JSON_parse a ok body :
  trim (prompt a) <> [] ->
  negb ok || no_body body = true ->
  startAgent JSON_parse a (FetchResponse ok body)
  = {| box := {| prompt := prompt a; streaming := false;
                 events := [error_event (lit "Failed to start stream")] |};
       reads := O;
       exit := Caught (lit "Failed to start stream") |}.
Proof.
  intros Hp H. unfold startAgent.
  destruct (trim (prompt a)) as [|c p]; [contradiction|].
  cbn [try_block]. rewrite H. reflexivity.
Qed.

Lemma unusable_response_errors_witness :
  trim (prompt agent_idle) <> [] /\
  negb false || no_body (Some [ReadValue frame_status_hi; ReadDone]) = true /\
  events (box (startAgent JSON.parse agent_idle
                 (FetchResponse false
                    (Some [ReadValue frame_status_hi; ReadDone]))))
  = [error_event (lit "Failed to start stream")].
Proof.
  assert (Hp : trim (prompt agent_idle) <> [])
    by (vm_compute; discriminate).
  split; [exact Hp|]. split; [reflexivity|].
  now rewrite (unusable_response_errors JSON.parse agent_idle false
                 (Some [ReadValue frame_status_hi; ReadDone]) Hp eq_refl).
Defined.

(* ================================================================== *)
(** * The upload pipeline: claims                                      *)
(* ================================================================== *)

Lemma set_status_files f s prev :
  map file (set_status f s prev) = map file prev.
Proof.
  unfold set_status. rewrite map_map. apply map_ext.
  intros u. now destruct (same_file (file u) f).
Qed.

Lemma set_status_nth f s prev i :
  nth_error (set_status f s prev) i
  = option_map (fun u => if same_file (file u) f
                         then {| file := file u; status := s |} else u)
      (nth_error prev i).
Proof. unfold set_status. apply nth_error_map. Qed.

Lemma same_file_ref a b : same_file a b = true <-> ref a = ref b.
Proof. apply Nat.eqb_eq. Qed.

Lemma new_items_files files : map file (new_items files) = files.
Proof.
  unfold new_items. rewrite map_map. cbn [file]. apply map_id.
Qed.

Lemma upload_loop_files items : forall net uploads,
  map file (fst (upload_loop items net uploads)) = map file uploads.
Proof.
  induction items as [|item items IH]; intros net uploads; cbn [upload_loop].
  - reflexivity.
  - destruct net as [|r net]; cbn [fst].
    + apply set_status_files.
    + specialize (IH net (set_status (file item) (final_status r)
                            (set_status (file item) uploading uploads))).
      destruct (upload_loop items net _) as [u trace]. cbn [fst] in *.
      now rewrite IH, !set_status_files.
Qed.

(** The list after a run: the files of the batch in front of the files that
    were there, whatever the uploads settle with. *)
Lemma handleFiles_files files net prev :
  map file (fst (handleFiles files net prev)) = files ++ map file prev.
Proof.
  unfold handleFiles.
  pose proof (upload_loop_files (new_items files) net (enqueue files prev))
    as H.
  destruct (upload_loop (new_items files) net (enqueue files prev))
    as [u trace]. cbn [fst] in *.
  rewrite H. unfold enqueue. now rewrite map_app, new_items_files.
Qed.

(** C5 as the code has it: a call puts the items of its files, in the order
    of the files and each with the status [queued], in front of the items
    already in the list; the files keep their places while the uploads run.
    Over several calls the list therefore shows the batches from the newest
    to the oldest, each batch in the order of its files. *)
Theorem enqueue_puts_batch_first :
  (forall files net prev,
      exists trace,
        snd (handleFiles files net prev)
        = SetUploads (map (fun f => {| file := f; status := queued |}) files
                      ++ prev) :: trace) /\
  (forall files net prev,
      map file (fst (handleFiles files net prev)) = files ++ map file prev) /\
  (forall batches : list (list File * list ingest_result),
      map file (fold_left (fun u b => fst (handleFiles (fst b) (snd b) u))
                  batches [])
      = List.concat (rev (map fst batches))).
Proof.
  split; [|split].
  - intros files net prev. unfold handleFiles.
    destruct (upload_loop (new_items files) net (enqueue files prev))
      as [u trace].
    now exists trace.
  - apply handleFiles_files.
  - intros batches.
    assert (G : forall u,
               map file (fold_left
                           (fun u b => fst (handleFiles (fst b) (snd b) u))
                           batches u)
               = List.concat (rev (map fst batches)) ++ map file u).
    { induction batches as [|[fs net] bs IH]; intros u.
      - reflexivity.
      - cbn [fold_left map rev fst snd]. rewrite IH, handleFiles_files.
        rewrite concat_app. cbn [List.concat].
        now rewrite app_nil_r, app_assoc. }
    rewrite G. apply app_nil_r.
Qed.

(** C5 as stated fails: [a.pdf] is submitted first and [b.pdf] second, and
    the list holds [b.pdf] in front of [a.pdf]. *)
Lemma later_batch_comes_first :
  map file
    (fst (handleFiles [file_b] [IngestResponse true true]
            (fst (handleFiles [file_a] [IngestResponse true true] []))))
  <> [file_a; file_b].
Proof. vm_compute. discriminate. Qed.

Local Open Scope nat_scope.

Lemma set_status_other f s prev i item :
  nth_error prev i = Some item -> same_file (file item) f = false ->
  nth_error (set_status f s prev) i = Some item.
Proof. intros H Hf. rewrite set_status_nth, H. cbn. now rewrite Hf. Qed.

Lemma set_status_same f s prev i item :
  nth_error prev i = Some item -> same_file (file item) f = true ->
  nth_error (set_status f s prev) i
  = Some {| file := file item; status := s |}.
Proof. intros H Hf. rewrite set_status_nth, H. cbn. now rewrite Hf. Qed.

Lemma same_file_false a b : ref a <> ref b -> same_file a b = false.
Proof. intros H. now apply Nat.eqb_neq. Qed.

Lemma repeat_double {A} (x : A) n :
  repeat x (2 * S n) = x :: x :: repeat x (2 * n).
Proof. now replace (2 * S n) with (S (S (2 * n))) by lia. Qed.

(** The uploads of other files leave an entry as it is. *)
Lemma upload_loop_frame files : forall net uploads i item,
  nth_error uploads i = Some item ->
  ~ In (ref (file item)) (map ref files) ->
  List.length net = List.length files ->
  map (status_at i) (snapshots (snd (upload_loop (new_items files) net uploads)))
  = repeat (Some (status item)) (2 * List.length files) /\
  nth_error (fst (upload_loop (new_items files) net uploads)) i = Some item.
Proof.
  induction files as [|f files IH]; intros net uploads i item Hi Hnot Hlen.
  - now split.
  - destruct net as [|r net]; [discriminate|].
    cbn [new_items map upload_loop file].
    assert (Hf : same_file (file item) f = false).
    { apply same_file_false. intros E. apply Hnot. now left. }
    pose proof (set_status_other f uploading _ _ _ Hi Hf) as H1.
    pose proof (set_status_other f (final_status r) _ _ _ H1 Hf) as H2.
    destruct (IH net _ i item H2) as [IHa IHb].
    { intros E. apply Hnot. now right. }
    { cbn in Hlen. lia. }
    fold (new_items files).
    destruct (upload_loop (new_items files) net _) as [u trace].
    cbn [fst snd snapshots map] in *.
    rewrite IHa. unfold status_at at 1 2. rewrite H1, H2.
    cbn [option_map List.length]. rewrite repeat_double. now split.
Qed.

(** The entry of a file of the batch, when no other file of the batch is the
    same object: untouched while the files before it are uploaded, then
    [uploading], then the status its own upload ends with, for good. *)
Lemma upload_loop_own pre : forall f post net uploads i item r,
  nth_error uploads i = Some item ->
  ref (file item) = ref f ->
  NoDup (map ref (pre ++ f :: post)) ->
  List.length net = List.length (pre ++ f :: post) ->
  nth_error net (List.length pre) = Some r ->
  map (status_at i)
    (snapshots (snd (upload_loop (new_items (pre ++ f :: post)) net uploads)))
  = repeat (Some (status item)) (2 * List.length pre)
    ++ [Some uploading]
    ++ repeat (Some (final_status r)) (2 * List.length post + 1) /\
  status_at i (fst (upload_loop (new_items (pre ++ f :: post)) net uploads))
  = Some (final_status r).
Proof.
  induction pre as [|p pre IH];
    intros f post net uploads i item r Hi Href Hnd Hlen Hr.
  - destruct net as [|r' net]; [discriminate|].
    cbn in Hr. injection Hr as ->.
    cbn [app new_items map upload_loop file List.length].
    assert (Hf : same_file (file item) f = true) by now apply same_file_ref.
    pose proof (set_status_same f uploading _ _ _ Hi Hf) as H1.
    pose proof (set_status_same f (final_status r) _ _ _ H1 Hf) as H2.
    cbn [map app] in Hnd. apply NoDup_cons_iff in Hnd as [Hnot Hnd].
    destruct (upload_loop_frame post net _ i _ H2) as [Fa Fb].
    { cbn [file]. now rewrite Href. }
    { cbn in Hlen. lia. }
    fold (new_items post).
    destruct (upload_loop (new_items post) net _) as [u trace].
    cbn [fst snd snapshots map repeat app status] in *.
    rewrite Fa. unfold status_at. rewrite H1, H2, Fb.
    cbn [option_map status]. split; [|reflexivity].
    f_equal. rewrite Nat.add_1_r. cbn [repeat]. reflexivity.
  - destruct net as [|r' net]; [discriminate|].
    cbn [app new_items map upload_loop file List.length] in *.
    apply NoDup_cons_iff in Hnd as [Hnot Hnd].
    assert (Hf : same_file (file item) p = false).
    { apply same_file_false. intros E. apply Hnot. rewrite <- E, Href.
      rewrite map_app. apply in_or_app. right. now left. }
    pose proof (set_status_other p uploading _ _ _ Hi Hf) as H1.
    pose proof (set_status_other p (final_status r') _ _ _ H1 Hf) as H2.
    destruct (IH f post net _ i item r H2 Href Hnd) as [IHa IHb].
    { lia. }
    { exact Hr. }
    fold (new_items (pre ++ f :: post)).
    destruct (upload_loop (new_items (pre ++ f :: post)) net _) as [u trace].
    cbn [fst snd snapshots map] in *.
    rewrite IHa. unfold status_at at 1 2. rewrite H1, H2.
    cbn [option_map]. rewrite repeat_double. now split.
Qed.

Lemma upload_loop_requests files : forall net uploads,
  List.length net = List.length files ->
  requests (snd (upload_loop (new_items files) net uploads)) = files.
Proof.
  induction files as [|f files IH]; intros net uploads Hlen.
  - reflexivity.
  - destruct net as [|r net]; [discriminate|].
    cbn [new_items map upload_loop file]. fold (new_items files).
    specialize (IH net (set_status f (final_status r)
                          (set_status f uploading uploads))).
    destruct (upload_loop (new_items files) net _) as [u trace].
    cbn [snd requests] in *. rewrite IH; [reflexivity|].
    cbn in Hlen. lia.
Qed.

(** Between two requests the first one settles, whatever arrives. *)
Lemma upload_loop_one_in_flight items : forall net uploads,
  Forall (fun n => n <= 1) (in_flight 0 (snd (upload_loop items net uploads))).
Proof.
  induction items as [|item items IH]; intros net uploads;
    cbn [upload_loop].
  - constructor.
  - destruct net as [|r net].
    + cbn. repeat constructor.
    + specialize (IH net (set_status (file item) (final_status r)
                            (set_status (file item) uploading uploads))).
      destruct (upload_loop items net _) as [u trace].
      cbn [snd in_flight Nat.pred] in *.
      repeat (constructor; [lia|]). exact IH.
Qed.

(** C6: for a batch whose uploads all settle, the requests are issued in
    the order of the files, one per file, and never is more than one of them
    in flight: a request goes out only after the one before it settled.  When
    the files of the batch are distinct objects, the entry of the [i]-th file
    is [queued] until its turn, [uploading] while its request is out, and
    from then on its final status, whatever the uploads of the other files
    settle with.  The final status is [done] exactly when the request
    resolved with a success response whose body parsed; it is [error] when
    the request was rejected (transport failure), when the response was not
    a success, and when the body of a success response did not parse. *)
Theorem uploads_sequential_and_isolated files net prev :
  List.length net = List.length files ->
  requests (snd (handleFiles files net prev)) = files /\
  Forall (fun n => n <= 1) (in_flight 0 (snd (handleFiles files net prev))) /\
  (NoDup (map ref files) ->
   forall i f r,
     nth_error files i = Some f -> nth_error net i = Some r ->
     let final :=
       match r with
       | IngestResponse true true => done
       | IngestResponse true false => error
       | IngestResponse false _ => error
       | IngestReject => error
       end in
     map (status_at i) (snapshots (snd (handleFiles files net prev)))
     = repeat (Some queued) (2 * i + 1)
       ++ [Some uploading]
       ++ repeat (Some final) (2 * (List.length files - i) - 1) /\
     status_at i (fst (handleFiles files net prev)) = Some final).
Proof.
  intros Hlen.
  assert (Hfinal : forall r,
             final_status r
             = match r with
               | IngestResponse true true => done
               | IngestResponse true false => error
               | IngestResponse false _ => error
               | IngestReject => error
               end).
  { intros [|[] []]; reflexivity. }
  unfold handleFiles.
  pose proof (upload_loop_requests files net (enqueue files prev) Hlen) as Hreq.
  pose proof (upload_loop_one_in_flight (new_items files) net
                (enqueue files prev)) as Hfl.
  split; [|split].
  - destruct (upload_loop (new_items files) net (enqueue files prev))
      as [u trace]. exact Hreq.
  - destruct (upload_loop (new_items files) net (enqueue files prev))
      as [u trace]. cbn [snd in_flight] in *.
    constructor; [lia | exact Hfl].
  - intros Hnd i f r Hf Hr. cbv zeta. rewrite <- (Hfinal r).
    destruct (nth_error_split _ _ Hf) as (pre & post & -> & Hi). subst i.
    assert (Hitem : nth_error (enqueue (pre ++ f :: post) prev)
                      (List.length pre)
                    = Some {| file := f; status := queued |}).
    { unfold enqueue, new_items. rewrite map_app. cbn [map].
      rewrite <- app_assoc.
      rewrite nth_error_app2 by (rewrite length_map; lia).
      rewrite length_map, Nat.sub_diag. reflexivity. }
    destruct (upload_loop_own pre f post net _ _ _ r Hitem eq_refl Hnd Hlen Hr)
      as [Ha Hb].
    destruct (upload_loop (new_items (pre ++ f :: post)) net
                (enqueue (pre ++ f :: post) prev)) as [u trace].
    cbn [fst snd snapshots map status] in *.
    split; [|exact Hb].
    rewrite Ha. unfold status_at at 1. rewrite Hitem. cbn [option_map status].
    replace (2 * (List.length (pre ++ f :: post) - List.length pre) - 1)
      with (2 * List.length post + 1)
      by (rewrite length_app; cbn [List.length]; lia).
    now rewrite (Nat.add_1_r (2 * List.length pre)).
Qed.

(** Three files; the upload of the first is answered with a status that is
    not a success, the second goes through, the body of the third does not
    parse: the requests go out in the order of the files, the entry of
    [a.pdf] goes from [queued] over [uploading] to [error], the entry of
    [b.pdf] ends as [done] behind the failure, the entry of [c.pdf] as
    [error]; and a rejected request ends as [error] as well. *)
Lemma uploads_sequential_and_isolated_witness :
  NoDup (map ref [file_a; file_b; file_c]) /\
  requests (snd (handleFiles [file_a; file_b; file_c]
                   [IngestResponse false true; IngestResponse true true;
                    IngestResponse true false] []))
  = [file_a; file_b; file_c] /\
  map (status_at 0)
    (snapshots (snd (handleFiles [file_a; file_b; file_c]
                       [IngestResponse false true; IngestResponse true true;
                        IngestResponse true false] [])))
  = [Some queued; Some uploading; Some error; Some error; Some error;
     Some error; Some error] /\
  status_at 1 (fst (handleFiles [file_a; file_b; file_c]
                      [IngestResponse false true; IngestResponse true true;
                       IngestResponse true false] []))
  = Some done /\
  status_at 2 (fst (handleFiles [file_a; file_b; file_c]
                      [IngestResponse false true; IngestResponse true true;
                       IngestResponse true false] []))
  = Some error /\
  status_at 0 (fst (handleFiles [file_a; file_b] [IngestReject;
                                                   IngestResponse true true]
                      []))
  = Some error.
Proof.
  assert (Hnd : NoDup (map ref [file_a; file_b; file_c])).
  { repeat constructor; cbn; intuition discriminate. }
  assert (Hnd2 : NoDup (map ref [file_a; file_b])).
  { repeat constructor; cbn; intuition discriminate. }
  destruct (uploads_sequential_and_isolated [file_a; file_b; file_c]
              [IngestResponse false true; IngestResponse true true;
               IngestResponse true false] [] eq_refl) as (Hreq & _ & Hst).
  destruct (Hst Hnd 0 file_a (IngestResponse false true) eq_refl eq_refl)
    as [Hhist _].
  destruct (Hst Hnd 1 file_b (IngestResponse true true) eq_refl eq_refl)
    as [_ Hb].
  destruct (Hst Hnd 2 file_c (IngestResponse true false) eq_refl eq_refl)
    as [_ Hc].
  destruct (uploads_sequential_and_isolated [file_a; file_b]
              [IngestReject; IngestResponse true true] [] eq_refl)
    as (_ & _ & Hst2).
  destruct (Hst2 Hnd2 0 file_a IngestReject eq_refl eq_refl) as [_ Ha].
  split; [exact Hnd|]. split; [exact Hreq|]. split; [exact Hhist|].
  split; [exact Hb|]. split; [exact Hc|]. exact Ha.
Defined.

Lemma upload_loop_length items net uploads :
  List.length (fst (upload_loop items net uploads)) = List.length uploads.
Proof.
  rewrite <- (length_map file), upload_loop_files. apply length_map.
Qed.

Lemma upload_loop_file_at items net uploads i a :
  nth_error (fst (upload_loop items net uploads)) i = Some a ->
  exists item, nth_error uploads i = Some item /\ file item = file a.
Proof.
  intros H.
  assert (Hm : nth_error (map file (fst (upload_loop items net uploads))) i
               = Some (file a)) by (rewrite nth_error_map, H; reflexivity).
  rewrite upload_loop_files, nth_error_map in Hm.
  destruct (nth_error uploads i) as [item|]; [|discriminate].
  exists item. split; [reflexivity|]. now inversion Hm.
Qed.

(** After its upload settled, the entries that hold a file of the batch all
    show one status. *)
Lemma upload_loop_coherent files : forall net uploads,
  List.length net = List.length files ->
  forall i j a b,
    nth_error (fst (upload_loop (new_items files) net uploads)) i = Some a ->
    nth_error (fst (upload_loop (new_items files) net uploads)) j = Some b ->
    ref (file a) = ref (file b) ->
    In (ref (file a)) (map ref files) ->
    status a = status b.
Proof.
  induction files as [|f files IH]; intros net uploads Hlen i j a b Hi Hj Hab Hin.
  - contradiction.
  - destruct net as [|r net]; [discriminate|].
    cbn [new_items map upload_loop file] in Hi, Hj. fold (new_items files) in *.
    set (u2 := set_status f (final_status r) (set_status f uploading uploads))
      in *.
    assert (Hlen' : List.length net = List.length files) by (cbn in Hlen; lia).
    destruct (upload_loop (new_items files) net u2) as [u trace] eqn:E.
    cbn [fst] in Hi, Hj.
    assert (Eu : u = fst (upload_loop (new_items files) net u2))
      by now rewrite E.
    destruct (in_dec Nat.eq_dec (ref (file a)) (map ref files)) as [Hin'|Hout].
    + rewrite Eu in Hi, Hj. exact (IH net u2 Hlen' i j a b Hi Hj Hab Hin').
    + assert (Hf : ref (file a) = ref f).
      { cbn [map] in Hin. destruct Hin as [Hin|Hin]; [now symmetry|].
        contradiction. }
      assert (final : forall k x,
                 nth_error u k = Some x -> ref (file x) = ref f ->
                 status x = final_status r).
      { intros k x Hk Hx. rewrite Eu in Hk.
        destruct (upload_loop_file_at _ _ _ _ _ Hk) as (item & Hitem & Hfile).
        destruct (upload_loop_frame files net u2 k item Hitem) as [_ Hsame].
        { rewrite Hfile, Hx, <- Hf. exact Hout. }
        { exact Hlen'. }
        rewrite Hk in Hsame. injection Hsame as ->.
        unfold u2 in Hitem. rewrite set_status_nth in Hitem.
        destruct (nth_error (set_status f uploading uploads) k) as [y|];
          [|discriminate].
        cbn [option_map] in Hitem. injection Hitem as <-.
        destruct (same_file (file y) f) eqn:Ey; [reflexivity|].
        apply Nat.eqb_neq in Ey. contradiction. }
      rewrite (final i a Hi Hf), (final j b Hj); [reflexivity|].
      now rewrite <- Hab.
Qed.

(** C10: a status update goes by the identity of the file object.  It
    leaves every entry whose file is another object as it is; it gives the
    new status to every entry that holds the object, all at once, so that
    these entries agree after it; and when the uploads of a batch have
    settled, the entries that hold one file object of the batch, however
    often it was enqueued, show one and the same status. *)
Theorem status_update_by_identity f s prev :
  (forall i u,
      nth_error prev i = Some u -> same_file (file u) f = false ->
      nth_error (set_status f s prev) i = Some u) /\
  (forall i u,
      nth_error prev i = Some u -> same_file (file u) f = true ->
      nth_error (set_status f s prev) i
      = Some {| file := file u; status := s |}) /\
  (forall i j u v,
      nth_error (set_status f s prev) i = Some u ->
      nth_error (set_status f s prev) j = Some v ->
      same_file (file u) f = true -> same_file (file v) f = true ->
      status u = status v) /\
  (forall files net i j u v,
      List.length net = List.length files ->
      nth_error (fst (handleFiles files net prev)) i = Some u ->
      nth_error (fst (handleFiles files net prev)) j = Some v ->
      same_file (file u) (file v) = true ->
      In (ref (file u)) (map ref files) ->
      status u = status v).
Proof.
  split; [|split; [|split]].
  - intros i u. apply set_status_other.
  - intros i u. apply set_status_same.
  - assert (G : forall k x,
               nth_error (set_status f s prev) k = Some x ->
               same_file (file x) f = true -> status x = s).
    { intros k x Hk Hx. rewrite set_status_nth in Hk.
      destruct (nth_error prev k) as [y|]; [|discriminate].
      cbn [option_map] in Hk. injection Hk as <-.
      destruct (same_file (file y) f) eqn:Ey; [reflexivity|].
      congruence. }
    intros i j u v Hi Hj Hu Hv.
    now rewrite (G i u Hi Hu), (G j v Hj Hv).
  - intros files net i j u v Hlen Hi Hj Huv Hin. unfold handleFiles in Hi, Hj.
    pose proof (upload_loop_coherent files net (enqueue files prev) Hlen
                  i j u v) as H.
    destruct (upload_loop (new_items files) net (enqueue files prev))
      as [w trace]. cbn [fst] in *.
    apply H; auto. now apply same_file_ref.
Qed.

(** The same file object twice in a batch: the first upload fails, the
    second succeeds, and both entries end as [done]. *)
Lemma status_update_by_identity_witness :
  nth_error (set_status file_a uploading
               [ {| file := file_a; status := queued |};
                 {| file := file_b; status := done |};
                 {| file := file_a; status := error |} ]) 1
  = Some {| file := file_b; status := done |} /\
  map status
    (fst (handleFiles [file_a; file_a]
            [IngestReject; IngestResponse true true] []))
  = [done; done].
Proof.
  split.
  - apply (proj1 (status_update_by_identity file_a uploading
                    [ {| file := file_a; status := queued |};
                      {| file := file_b; status := done |};
                      {| file := file_a; status := error |} ])
             1 {| file := file_b; status := done |});
      reflexivity.
  - reflexivity.
Defined.

Local Open Scope Z_scope.

(* ================================================================== *)
(** * The query client: claims                                         *)
(* ================================================================== *)

(** The handler does not look at the status of the response. *)
Lemma runQuery_ignores_ok q ok ok' body a :
  runQuery q (QueryResponse ok body) a = runQuery q (QueryResponse ok' body) a.
Proof. reflexivity. Qed.

(** A response whose body is an object without [results], as an error body
    is, gives the empty list as well, whatever its status. *)
Lemma body_without_results q ok members a :
  lookup (lit "results") members = None ->
  runQuery q (QueryResponse ok (JsonResolve (JObj members))) a
  = ({| queryLoading := false; results := JArr [] |}, []).
Proof.
  intros H. unfold runQuery. cbn [query_try get_results]. now rewrite H.
Qed.

(** The scenario of the specification: the stub answers with one result. *)
Example query_cats :
  match JSON.parse (dq "{'results':[{'score':0.92,'content':'cats are great'}]}")
  with
  | Some data =>
      results (fst (runQuery (lit "cats") (QueryResponse true (JsonResolve data))
                      {| queryLoading := false; results := JArr [] |}))
      = JArr [ JObj [ (lit "score",
                       JNum {| neg := false; digits := 92; exponent := -2 |});
                      (lit "content", JStr (lit "cats are great")) ] ]
  | None => False
  end.
Proof. vm_compute. reflexivity. Qed.

(** C4 (the code at the failing input): the server answers with a status
    that is not a success and a JSON body that has [results].  [runQuery]
    does not read [res.ok], as [handleFiles] and [startAgent] do; it takes
    the failed response for an answer and stores its results, for the caller
    to show. *)
Theorem non_success_response_shows_results :
  JSON.parse (dq "{'results':[{'score':0.92,'content':'cats are great'}]}")
  = Some cats_data /\
  runQuery (lit "cats") (QueryResponse false (JsonResolve cats_data)) query_idle
  = ({| queryLoading := false; results := JArr [cats_result] |}, []) /\
  results (fst (runQuery (lit "cats")
                  (QueryResponse false (JsonResolve cats_data)) query_idle))
  <> JArr [].
Proof.
  split; [vm_compute; reflexivity|]. split; [reflexivity|].
  cbn. discriminate.
Qed.

(** X18: when the [try] block of [runQuery] throws ([fetch] rejects, the
    body of the response is not JSON, or reading [results] off a [null] body
    throws), the handler ends with the empty result list and with
    [queryLoading] off; the error goes to [console.error] and nowhere
    else. *)
Theorem thrown_query_gives_no_results q net a :
  query_throws net = true ->
  fst (runQuery q net a) = {| queryLoading := false; results := JArr [] |} /\
  exists message, snd (runQuery q net a) = [message].
Proof.
  intros H. unfold runQuery.
  destruct net as [m|ok [m|data]]; cbn [query_try].
  - split; [reflexivity|now exists m].
  - split; [reflexivity|now exists m].
  - destruct data; try discriminate H. cbn.
    split; [reflexivity|eauto].
Qed.

Lemma thrown_query_gives_no_results_witness :
  query_throws (QueryReject (lit "Failed to fetch")) = true /\
  results (fst (runQuery (lit "cats") (QueryReject (lit "Failed to fetch"))
                  {| queryLoading := false;
                     results := JArr [JStr (lit "stale")] |}))
  = JArr [].
Proof.
  split; [reflexivity|].
  now rewrite (proj1 (thrown_query_gives_no_results (lit "cats")
                        (QueryReject (lit "Failed to fetch"))
                        {| queryLoading := false;
                           results := JArr [JStr (lit "stale")] |}
                        eq_refl)).
Defined.

(* ================================================================== *)
(** * Further properties of the frame loop                             *)
(* ================================================================== *)

(** X1: a frame without a line that starts with the data marker (a comment,
    a keep-alive, an [event:] line alone) adds no event, and the frames
    around it give their events as if it were not there. *)
Theorem no_marker_no_event JSON_parse pre chunk post events :
  data_line chunk = None ->
  for_parts JSON_parse [chunk] events = events /\
  for_parts JSON_parse (pre ++ chunk :: post) events
  = for_parts JSON_parse (pre ++ post) events.
Proof.
  intros Hnone. split.
  - cbn [for_parts]. now rewrite Hnone.
  - revert events. induction pre as [|p pre IH]; intros events.
    + cbn [app for_parts]. now rewrite Hnone.
    + cbn [app for_parts]. destruct (data_line p) as [l|]; [|apply IH].
      destruct (eqb (strip_marker l) (lit "[DONE]")); [reflexivity|].
      destruct (JSON_parse (strip_marker l)); apply IH.
Qed.

Lemma no_marker_no_event_witness :
  data_line part_no_marker = None /\
  for_parts JSON.parse [part_status_hi; part_no_marker; part_done] []
  = for_parts JSON.parse [part_status_hi; part_done] [].
Proof.
  assert (H : data_line part_no_marker = None) by (vm_compute; reflexivity).
  split; [exact H|].
  exact (proj2 (no_marker_no_event JSON.parse [part_status_hi] part_no_marker
                  [part_done] [] H)).
Defined.

Lemma for_parts_log JSON_parse parts : forall events,
  for_parts JSON_parse parts events
  = events ++ for_parts JSON_parse parts [].
Proof.
  induction parts as [|chunk parts IH]; intros events; cbn [for_parts].
  - now rewrite app_nil_r.
  - destruct (data_line chunk) as [line|]; [|apply IH].
    destruct (eqb (strip_marker line) (lit "[DONE]")); [reflexivity|].
    destruct (JSON_parse (strip_marker line)) as [obj|]; [|apply IH].
    rewrite IH, (IH ([] ++ [obj])). now rewrite <- app_assoc.
Qed.

Lemma for_parts_length JSON_parse parts :
  (List.length (for_parts JSON_parse parts []) <= List.length parts)%nat.
Proof.
  induction parts as [|chunk parts IH]; cbn [for_parts List.length].
  - lia.
  - destruct (data_line chunk) as [line|]; [|lia].
    destruct (eqb (strip_marker line) (lit "[DONE]")); [cbn; lia|].
    destruct (JSON_parse (strip_marker line)) as [obj|]; [|lia].
    rewrite for_parts_log, length_app. cbn. lia.
Qed.

(** X3: the frame loop only appends.  The log it is given comes back as a
    prefix of its result, what it appends does not depend on that log, and
    it appends at most one event per frame. *)
Theorem frame_loop_appends JSON_parse parts events :
  for_parts JSON_parse parts events
  = events ++ for_parts JSON_parse parts [] /\
  (List.length (for_parts JSON_parse parts events)
   <= List.length events + List.length parts)%nat.
Proof.
  split; [apply for_parts_log|].
  rewrite for_parts_log, length_app.
  pose proof (for_parts_length JSON_parse parts). lia.
Qed.

(* ================================================================== *)
(** * [split] and [join]                                               *)
(* ================================================================== *)

Lemma join_cons_head sep c pieces : pieces <> [] ->
  join sep (cons_head c pieces) = c :: join sep pieces.
Proof.
  destruct pieces as [|p [|q ps]]; [contradiction| |]; reflexivity.
Qed.

Lemma join_cons sep p rest : rest <> [] ->
  join sep (p :: rest) = p ++ sep ++ join sep rest.
Proof. destruct rest; [contradiction|reflexivity]. Qed.

Lemma startsWith_skipn s sep : startsWith s sep = true ->
  sep ++ skipn (List.length sep) s = s.
Proof.
  revert s. induction sep as [|x p IH]; intros [|y s'] H; cbn in *;
    try reflexivity; try discriminate.
  apply andb_true_iff in H as [Hxy H]. apply Z.eqb_eq in Hxy. subst.
  f_equal. now apply IH.
Qed.

Lemma join_split_scan sep s : sep <> [] -> forall k,
  (k <= List.length s)%nat ->
  (k < List.length sep)%nat ->
  join sep (split_scan sep s k) = skipn k s.
Proof.
  intros Hsep. induction s as [|c s IH]; intros k Hk Hks.
  - cbn in Hk. now replace k with O by lia.
  - destruct k as [|k]; cbn [split_scan skipn].
    + destruct (startsWith (c :: s) sep) eqn:E.
      * pose proof (startsWith_length _ _ E) as Hlen.
        pose proof (startsWith_skipn _ _ E) as Hskip.
        rewrite join_cons by apply split_scan_not_nil.
        destruct sep as [|x sep']; [contradiction|].
        cbn [List.length Nat.pred skipn] in *.
        rewrite IH by lia. exact Hskip.
      * rewrite join_cons_head by apply split_scan_not_nil.
        rewrite IH; [reflexivity|lia|].
        destruct sep; [contradiction|cbn; lia].
    + apply IH; cbn in *; lia.
Qed.

(** [split] loses nothing: the pieces joined with the separator are the
    text again, for every text and every separator. *)
Lemma split_join s sep : join sep (split s sep) = s.
Proof.
  destruct sep as [|x sep'].
  - cbn [split]. induction s as [|c s IH]; [reflexivity|].
    cbn [map join]. destruct s as [|d s']; [reflexivity|].
    cbn [map] in *. now rewrite IH.
  - unfold split. rewrite join_split_scan; [reflexivity|discriminate| |];
      cbn; lia.
Qed.

(* ================================================================== *)
(** * Blank texts                                                      *)
(* ================================================================== *)

Lemma dropWhile_nil p s : dropWhile p s = [] <-> forallb p s = true.
Proof.
  induction s as [|c s IH]; cbn [dropWhile forallb].
  - tauto.
  - destruct (p c); cbn [andb]; [exact IH|].
    split; discriminate.
Qed.

(** What [dropWhile] leaves starts with a code unit that fails the test. *)
Lemma dropWhile_head p s c t : dropWhile p s = c :: t -> p c = false.
Proof.
  induction s as [|x s IH]; cbn [dropWhile]; [discriminate|].
  destruct (p x) eqn:E; [exact IH|].
  intros H. now injection H as <- _.
Qed.

Lemma dropWhile_fixed p c t : p c = false -> dropWhile p (c :: t) = c :: t.
Proof. intros H. cbn [dropWhile]. now rewrite H. Qed.

Lemma forallb_rev {A} (p : A -> bool) l : forallb p (rev l) = forallb p l.
Proof.
  induction l as [|x l IH]; [reflexivity|].
  cbn [rev forallb]. rewrite forallb_app, IH. cbn [forallb].
  now rewrite andb_true_r, andb_comm.
Qed.

(** [trim] leaves nothing exactly of the texts made of white space. *)
Lemma trim_nil s : trim s = [] <-> forallb is_white_space s = true.
Proof.
  unfold trim, trimEnd, trimStart. split.
  - intros H.
    assert (H' : dropWhile is_white_space
                   (rev (dropWhile is_white_space s)) = []).
    { destruct (dropWhile is_white_space (rev (dropWhile is_white_space s)));
        [reflexivity|].
      apply (f_equal (@List.length Z)) in H.
      rewrite length_rev in H. discriminate. }
    apply dropWhile_nil in H'. rewrite forallb_rev in H'.
    destruct (dropWhile is_white_space s) as [|c t] eqn:E.
    + now apply dropWhile_nil.
    + apply dropWhile_head in E. cbn [forallb] in H'. rewrite E in H'.
      discriminate.
  - intros H. apply dropWhile_nil in H. now rewrite H.
Qed.

Lemma trim_nil_bool s :
  match trim s with [] => true | _ :: _ => false end
  = forallb is_white_space s.
Proof.
  destruct (forallb is_white_space s) eqn:E.
  - apply trim_nil in E. now rewrite E.
  - destruct (trim s) eqn:T; [|reflexivity].
    apply trim_nil in T. congruence.
Qed.

(* ================================================================== *)
(** * Further properties of the stream session                         *)
(* ================================================================== *)

Lemma read_loop_started JSON_parse body : forall st events n,
  snd (read_loop JSON_parse body st events n) <> NotStarted.
Proof.
  induction body as [|r body IH]; intros st events n; cbn [read_loop].
  - discriminate.
  - destruct r; cbn; try discriminate.
    destruct (feed JSON_parse st events value). apply IH.
Qed.

Lemma try_block_started JSON_parse net events :
  snd (try_block JSON_parse net events) <> NotStarted.
Proof.
  destruct net as [m|ok [rs|]]; cbn [try_block]; try discriminate.
  - destruct (negb ok || no_body (Some rs)); [discriminate|].
    apply read_loop_started.
  - destruct (negb ok || no_body None); discriminate.
Qed.

(** X11: [startAgent] does nothing at all (no request, the log, the prompt
    and [streaming] as they were) exactly when the prompt is empty or made of
    white space only; for every other prompt the earlier log is discarded
    and the request is made. *)
Theorem blank_prompt_not_started JSON_parse a net :
  (forallb is_white_space (prompt a) = true ->
   startAgent JSON_parse a net
   = {| box := a; reads := O; exit := NotStarted |}) /\
  (forallb is_white_space (prompt a) = false ->
   exit (startAgent JSON_parse a net) <> NotStarted /\
   events (box (startAgent JSON_parse a net))
   = match exit (startAgent JSON_parse a net) with
     | Caught message =>
         fst (fst (try_block JSON_parse net [])) ++ [error_event message]
     | _ => fst (fst (try_block JSON_parse net []))
     end).
Proof.
  pose proof (trim_nil_bool (prompt a)) as Ht. unfold startAgent. split.
  - intros H. rewrite H in Ht. now destruct (trim (prompt a)).
  - intros H. rewrite H in Ht.
    destruct (trim (prompt a)) as [|c t]; [discriminate|].
    pose proof (try_block_started JSON_parse net []) as Hs.
    destruct (try_block JSON_parse net []) as [[ev n] c'].
    cbn [fst snd] in *. destruct c'; cbn; try contradiction;
      split; try discriminate; reflexivity.
Qed.

Lemma blank_prompt_not_started_witness :
  forallb is_white_space [32; 9; LF] = true /\
  forallb is_white_space (prompt agent_idle) = false /\
  events (box (startAgent JSON.parse
                 {| prompt := [32; 9; LF]; streaming := false;
                    events := [status_hi] |}
                 (FetchResponse true (Some [ReadValue frame_done]))))
  = [status_hi] /\
  exit (startAgent JSON.parse agent_idle (FetchReject abort_message))
  <> NotStarted.
Proof.
  split; [reflexivity|]. split; [vm_compute; reflexivity|]. split.
  - now rewrite (proj1 (blank_prompt_not_started JSON.parse
                          {| prompt := [32; 9; LF]; streaming := false;
                             events := [status_hi] |}
                          (FetchResponse true (Some [ReadValue frame_done])))
                   eq_refl).
  - apply (proj2 (blank_prompt_not_started JSON.parse agent_idle
                    (FetchReject abort_message))).
    vm_compute. reflexivity.
Defined.

(** X12: once the handler has started, [streaming] (the Stop button) is on
    exactly while it is suspended at an [await]; every way out of the
    handler, the end of the body as well as an error, turns it off. *)
Theorem streaming_iff_awaiting JSON_parse a net :
  trim (prompt a) <> [] ->
  (streaming (box (startAgent JSON_parse a net)) = true
   <-> exit (startAgent JSON_parse a net) = Awaiting).
Proof.
  intros Hp. unfold startAgent.
  destruct (trim (prompt a)) as [|c t]; [contradiction|].
  pose proof (try_block_started JSON_parse net []) as Hs.
  destruct (try_block JSON_parse net []) as [[ev n] c'].
  destruct c'; cbn in *; split; intros H;
    try discriminate; try reflexivity; try contradiction.
Qed.

Lemma streaming_iff_awaiting_witness :
  trim (prompt agent_idle) <> [] /\
  streaming (box (startAgent JSON.parse agent_idle
                    (FetchResponse true (Some [ReadValue frame_status_hi]))))
  = true.
Proof.
  assert (Hp : trim (prompt agent_idle) <> [])
    by (vm_compute; discriminate).
  split; [exact Hp|].
  apply (streaming_iff_awaiting JSON.parse agent_idle
           (FetchResponse true (Some [ReadValue frame_status_hi])) Hp).
  vm_compute. reflexivity.
Defined.

Lemma feed_extends JSON_parse st events value :
  exists new, snd (feed JSON_parse st events value) = events ++ new.
Proof.
  rewrite feed_eq. cbn [snd]. rewrite for_parts_log. eauto.
Qed.

Lemma read_loop_extends JSON_parse body : forall st events n,
  exists new,
    fst (fst (read_loop JSON_parse body st events n)) = events ++ new.
Proof.
  induction body as [|r body IH]; intros st events n; cbn [read_loop].
  - exists []. cbn. now rewrite app_nil_r.
  - destruct r; cbn [fst]; try (exists []; now rewrite app_nil_r).
    destruct (feed_extends JSON_parse st events value) as [new1 H1].
    destruct (feed JSON_parse st events value) as [st' events'].
    cbn [snd] in H1. subst events'.
    destruct (IH st' (events ++ new1) (S n)) as [new2 H2].
    exists (new1 ++ new2). now rewrite H2, app_assoc.
Qed.

(** X4: the log is append-only while the body is read.  Whatever the body
    delivers after the chunks [chunks] (more chunks, its end, a failure, an
    abort), the log then is the log after [chunks] with events appended:
    no event that was shown is removed or changed. *)
Theorem log_append_only JSON_parse a chunks more :
  trim (prompt a) <> [] ->
  exists new,
    events (box (startAgent JSON_parse a
                   (FetchResponse true
                      (Some (map ReadValue chunks ++ more)))))
    = events (box (startAgent JSON_parse a
                     (FetchResponse true (Some (map ReadValue chunks)))))
      ++ new.
Proof.
  intros Hp. unfold startAgent.
  destruct (trim (prompt a)) as [|c t]; [contradiction|].
  cbn [try_block negb orb no_body].
  pose proof (read_loop_values JSON_parse chunks [] stream_init [] O) as H0.
  rewrite app_nil_r in H0. rewrite H0, read_loop_values.
  cbn [read_loop events box].
  set (st := fst (feed_all JSON_parse stream_init [] chunks)).
  set (ev := snd (feed_all JSON_parse stream_init [] chunks)).
  destruct (read_loop_extends JSON_parse more st ev
              (0 + List.length chunks)) as [new H].
  destruct (read_loop JSON_parse more st ev (0 + List.length chunks))
    as [[ev' n] c']. cbn [fst] in H. subst ev'.
  destruct c'; cbn [events box]; eauto.
  exists (new ++ [error_event message]). now rewrite app_assoc.
Qed.

Lemma log_append_only_witness :
  trim (prompt agent_idle) <> [] /\
  exists new,
    events (box (startAgent JSON.parse agent_idle
                   (FetchResponse true
                      (Some (map ReadValue [frame_status_hi]
                             ++ [ReadValue frame_done; ReadDone])))))
    = [status_hi] ++ new.
Proof.
  assert (Hp : trim (prompt agent_idle) <> [])
    by (vm_compute; discriminate).
  split; [exact Hp|].
  exact (log_append_only JSON.parse agent_idle [frame_status_hi]
           [ReadValue frame_done; ReadDone] Hp).
Defined.

(** X5: when the body ends, the handler leaves its [try] block normally:
    [streaming] is off, the log holds the events of the frames the chunks
    closed and nothing else.  No [done] event is made up when the sentinel
    did not come, what is left in the buffer is not looked at, and nothing
    is read behind the end. *)
Theorem body_end_completes JSON_parse a chunks rest :
  trim (prompt a) <> [] ->
  startAgent JSON_parse a
    (FetchResponse true (Some (map ReadValue chunks ++ ReadDone :: rest)))
  = {| box := {| prompt := prompt a; streaming := false;
                 events := snd (feed_all JSON_parse stream_init [] chunks) |};
       reads := S (List.length chunks);
       exit := Completed |}.
Proof.
  intros Hp. unfold startAgent.
  destruct (trim (prompt a)) as [|c p]; [contradiction|].
  cbn [try_block negb orb no_body].
  rewrite read_loop_values. reflexivity.
Qed.

Lemma body_end_completes_witness :
  trim (prompt agent_idle) <> [] /\
  events (box (startAgent JSON.parse agent_idle
                 (FetchResponse true
                    (Some (map ReadValue [frame_status_hi; bytes "data: [DONE]"]
                           ++ ReadDone :: [ReadValue frame_done])))))
  = [status_hi].
Proof.
  assert (Hp : trim (prompt agent_idle) <> [])
    by (vm_compute; discriminate).
  split; [exact Hp|].
  now rewrite (body_end_completes JSON.parse agent_idle
                 [frame_status_hi; bytes "data: [DONE]"]
                 [ReadValue frame_done] Hp).
Defined.

(* ================================================================== *)
(** * ASCII bodies                                                     *)
(* ================================================================== *)

Lemma byte_value_ascii b : is_ascii b = true -> 0 <= byte_value b < 0x80.
Proof.
  unfold is_ascii, byte_value. intros H. apply Z.ltb_lt in H. lia.
Qed.

Lemma lead_ascii d v : 0 <= v < 0x80 ->
  TextDecoder.lead d v = (d, TextDecoder.Scalar v).
Proof.
  intros H. unfold TextDecoder.lead, TextDecoder.in_range.
  replace (0x00 <=? v) with true by (symmetry; apply Z.leb_le; lia).
  now replace (v <=? 0x7F) with true by (symmetry; apply Z.leb_le; lia).
Qed.

Lemma run_ascii d value :
  TextDecoder.bytes_needed d = 0 -> forallb is_ascii value = true ->
  TextDecoder.run d value = (d, ascii_text value).
Proof.
  intros Hd. induction value as [|b value IH]; intros H.
  - reflexivity.
  - cbn [forallb] in H. apply andb_true_iff in H as [Hb H].
    cbn [TextDecoder.run ascii_text map]. unfold TextDecoder.handler.
    rewrite Hd. cbn [Z.eqb].
    fold (byte_value b). rewrite lead_ascii by now apply byte_value_ascii.
    rewrite (IH H). reflexivity.
Qed.

Lemma serialize_ascii output : Forall (fun v => 0 <= v < 0x80) output ->
  TextDecoder.serialize true output = (true, output) /\
  (output <> [] ->
   forall seen, TextDecoder.serialize seen output = (true, output)).
Proof.
  induction 1 as [|v output Hv Hall [IH _]].
  - split; [reflexivity|]. intros H. contradiction.
  - assert (E : forall seen,
               TextDecoder.serialize seen (v :: output) = (true, v :: output)).
    { intros seen. cbn [TextDecoder.serialize].
      replace (v =? 0xFEFF) with false by (symmetry; apply Z.eqb_neq; lia).
      rewrite andb_false_r, IH. unfold TextDecoder.code_units.
      now replace (v <=? 0xFFFF) with true by (symmetry; apply Z.leb_le; lia). }
    split; [apply E|]. intros _. apply E.
Qed.

Lemma ascii_text_small value : forallb is_ascii value = true ->
  Forall (fun v => 0 <= v < 0x80) (ascii_text value).
Proof.
  induction value as [|b value IH]; intros H; cbn [ascii_text map].
  - constructor.
  - cbn [forallb] in H. apply andb_true_iff in H as [Hb H].
    constructor; [now apply byte_value_ascii|now apply IH].
Qed.

Lemma decode_ascii_chunk d value :
  TextDecoder.bytes_needed (TextDecoder.decoder d) = 0 ->
  forallb is_ascii value = true ->
  snd (TextDecoder.decode d value) = ascii_text value /\
  TextDecoder.decoder (fst (TextDecoder.decode d value))
  = TextDecoder.decoder d.
Proof.
  intros Hd Ha. unfold TextDecoder.decode. rewrite (run_ascii _ _ Hd Ha).
  destruct (serialize_ascii _ (ascii_text_small _ Ha)) as [H1 H2].
  destruct (ascii_text value) as [|v out] eqn:E.
  - cbn. split; reflexivity.
  - rewrite H2 by discriminate. cbn. split; reflexivity.
Qed.

(** X10: between two characters the decoder hands ASCII bytes through: the
    text of a chunk of bytes below 128 is these bytes, one code unit each,
    and the UTF-8 state is as before, so that the read loop appends exactly
    the bytes of the chunk to its buffer before it cuts it. *)
Theorem ascii_passes_through JSON_parse st events value :
  TextDecoder.bytes_needed (TextDecoder.decoder (decoder st)) = 0 ->
  forallb is_ascii value = true ->
  snd (TextDecoder.decode (decoder st) value) = ascii_text value /\
  TextDecoder.decoder (decoder (fst (feed JSON_parse st events value)))
  = TextDecoder.decoder (decoder st) /\
  frames st value
  = removelast (split (buffer st ++ ascii_text value) [LF; LF]) /\
  buffer (fst (feed JSON_parse st events value))
  = last (split (buffer st ++ ascii_text value) [LF; LF]) [].
Proof.
  intros Hd Ha. destruct (decode_ascii_chunk _ _ Hd Ha) as [H1 H2].
  rewrite feed_eq. cbn [fst].
  rewrite next_stream_decoder, frames_removelast, next_stream_buffer, H1.
  repeat split. exact H2.
Qed.

Lemma ascii_passes_through_witness :
  TextDecoder.bytes_needed (TextDecoder.decoder (decoder stream_init)) = 0 /\
  forallb is_ascii frame_done = true /\
  snd (TextDecoder.decode (decoder stream_init) frame_done)
  = lit "data: [DONE]" ++ [LF; LF].
Proof.
  split; [reflexivity|]. split; [vm_compute; reflexivity|].
  now rewrite (proj1 (ascii_passes_through JSON.parse stream_init []
                        frame_done eq_refl eq_refl)).
Defined.

(* ================================================================== *)
(** * Lines and frames of a text                                       *)
(* ================================================================== *)

Lemma startsWith_nil s : startsWith s [] = true.
Proof. now destruct s. Qed.

Lemma no_blank_line_split s :
  has_blank_line s = false -> split s [LF; LF] = [s].
Proof.
  unfold split. induction s as [|c s IH]; intros H; cbn [split_scan].
  - reflexivity.
  - cbn [has_blank_line] in H. apply orb_false_iff in H as [H1 H2].
    rewrite H1, (IH H2). reflexivity.
Qed.

Lemma one_line_split s : one_line s = true -> split s [LF] = [s].
Proof.
  unfold split, one_line. induction s as [|c s IH]; intros H; cbn [split_scan].
  - reflexivity.
  - cbn [forallb] in H. apply andb_true_iff in H as [Hc H].
    apply negb_true_iff in Hc.
    cbn [startsWith]. rewrite Z.eqb_sym, Hc. cbn [andb].
    rewrite (IH H). reflexivity.
Qed.

(** The first line of a text ends at its first line feed. *)
Lemma first_line_split s t : one_line s = true ->
  split (s ++ LF :: t) [LF] = s :: split t [LF].
Proof.
  unfold split, one_line. induction s as [|c s IH]; intros H;
    cbn [app split_scan].
  - cbn [startsWith]. rewrite Z.eqb_refl, startsWith_nil. reflexivity.
  - cbn [forallb] in H. apply andb_true_iff in H as [Hc H].
    apply negb_true_iff in Hc.
    cbn [startsWith]. rewrite Z.eqb_sym, Hc. cbn [andb].
    rewrite (IH H). reflexivity.
Qed.

(** A line closed by a blank line is one frame, and nothing is left. *)
Lemma one_frame_split s : one_line s = true ->
  split (s ++ [LF; LF]) [LF; LF] = [s; []].
Proof.
  unfold split, one_line. induction s as [|c s IH]; intros H;
    cbn [app split_scan].
  - reflexivity.
  - cbn [forallb] in H. apply andb_true_iff in H as [Hc H].
    apply negb_true_iff in Hc.
    cbn [startsWith]. rewrite Z.eqb_sym, Hc. cbn [andb].
    rewrite (IH H). reflexivity.
Qed.

Lemma rev_last (s : jsstring) d : s <> [] ->
  rev s = last s d :: rev (removelast s).
Proof.
  intros H. rewrite (app_removelast_last d H) at 1.
  now rewrite rev_app_distr.
Qed.

(** [trimEnd] does not go past a code unit that is not white space. *)
Lemma trimEnd_app a b : a <> [] -> is_white_space (last a 32) = false ->
  trimEnd (a ++ b) = a ++ trimEnd b.
Proof.
  intros Ha Hl. unfold trimEnd. rewrite rev_app_distr.
  assert (E : forall x,
             dropWhile is_white_space (x ++ rev a)
             = dropWhile is_white_space x ++ rev a).
  { induction x as [|c x IH]; cbn [app dropWhile].
    - rewrite (rev_last a 32 Ha). now apply dropWhile_fixed.
    - now destruct (is_white_space c). }
  now rewrite E, rev_app_distr, rev_involutive.
Qed.

Lemma trimEnd_fixed a : a <> [] -> is_white_space (last a 32) = false ->
  trimEnd a = a.
Proof.
  intros Ha Hl. rewrite <- (app_nil_r a) at 1.
  rewrite (trimEnd_app a [] Ha Hl). apply app_nil_r.
Qed.

(** What [trimEnd] leaves of a text behind a line feed is nothing, or it
    starts with that line feed. *)
Lemma trimEnd_line_feed t :
  trimEnd (LF :: t) = [] \/ exists t', trimEnd (LF :: t) = LF :: t'.
Proof.
  assert (P : forall l : jsstring,
             exists u, l = u ++ dropWhile is_white_space l).
  { induction l as [|c l [u IH]]; [now exists []|].
    cbn [dropWhile]. destruct (is_white_space c).
    - exists (c :: u). cbn. now f_equal.
    - now exists []. }
  destruct (P (rev (LF :: t))) as [u Hu].
  apply (f_equal (@rev Z)) in Hu.
  rewrite rev_involutive, rev_app_distr in Hu. fold (trimEnd (LF :: t)) in Hu.
  destruct (trimEnd (LF :: t)) as [|c t'] eqn:E; [now left|right].
  exists t'. cbn in Hu. now injection Hu as <- _.
Qed.

Lemma data_marker_head s : startsWith s (lit "data:") = true ->
  exists t, s = 100 :: t.
Proof.
  destruct s as [|c t]; [discriminate|]. cbn [lit list_ascii_of_string map].
  cbn [startsWith]. intros H. apply andb_true_iff in H as [H _].
  apply Z.eqb_eq in H. exists t. now rewrite <- H.
Qed.

Lemma data_line_first first rest :
  startsWith first (lit "data:") = true ->
  one_line first = true ->
  is_white_space (last first 32) = false ->
  data_line first = Some first /\
  data_line (first ++ LF :: rest) = Some first.
Proof.
  intros Hm Hl Hw.
  destruct (data_marker_head _ Hm) as [t Ht].
  assert (Hne : first <> []) by (subst; discriminate).
  assert (Hs : forall b, trim (first ++ b) = first ++ trimEnd b).
  { intros b. unfold trim, trimStart. subst first. cbn [app].
    rewrite dropWhile_fixed by reflexivity.
    now apply (trimEnd_app (100 :: t) b). }
  unfold data_line. split.
  - rewrite <- (app_nil_r first) at 1. rewrite Hs. cbn [trimEnd rev dropWhile].
    rewrite app_nil_r, one_line_split by exact Hl.
    cbn [find]. now rewrite Hm.
  - rewrite Hs.
    destruct (trimEnd_line_feed rest) as [E|[t' E]]; rewrite E.
    + rewrite app_nil_r, one_line_split by exact Hl.
      cbn [find]. now rewrite Hm.
    + rewrite first_line_split by exact Hl.
      cbn [find]. now rewrite Hm.
Qed.

(** X8: when the first line of a frame starts with the data marker (and
    does not end in white space), the frame counts as that line alone:
    whatever follows it in the frame, further [data:] lines included, is
    ignored and not joined to the payload. *)
Theorem first_data_line_wins JSON_parse first rest more events :
  startsWith first (lit "data:") = true ->
  one_line first = true ->
  is_white_space (last first 32) = false ->
  data_line (first ++ LF :: rest) = Some first /\
  for_parts JSON_parse ((first ++ LF :: rest) :: more) events
  = for_parts JSON_parse (first :: more) events.
Proof.
  intros Hm Hl Hw. destruct (data_line_first first rest Hm Hl Hw) as [H1 H2].
  split; [exact H2|]. cbn [for_parts]. now rewrite H1, H2.
Qed.

Lemma first_data_line_wins_witness :
  startsWith part_done (lit "data:") = true /\
  one_line part_done = true /\
  is_white_space (last part_done 32) = false /\
  for_parts JSON.parse [part_two_lines; part_status_hi] [] = [done_event].
Proof.
  assert (H1 : startsWith part_done (lit "data:") = true)
    by (vm_compute; reflexivity).
  assert (H2 : one_line part_done = true) by (vm_compute; reflexivity).
  assert (H3 : is_white_space (last part_done 32) = false)
    by (vm_compute; reflexivity).
  repeat (split; [assumption|]).
  etransitivity.
  - exact (proj2 (first_data_line_wins JSON.parse part_done
                    (dq "data: {'type':'status','value':'hi'}")
                    [part_status_hi] [] H1 H2 H3)).
  - vm_compute. reflexivity.
Defined.

Lemma feed_all_app JSON_parse a : forall b st events,
  feed_all JSON_parse st events (a ++ b)
  = feed_all JSON_parse (fst (feed_all JSON_parse st events a))
      (snd (feed_all JSON_parse st events a)) b.
Proof.
  induction a as [|v a IH]; intros b st events; cbn [app feed_all].
  - reflexivity.
  - destruct (feed JSON_parse st events v) as [st' events']. apply IH.
Qed.

(** A chunk that brings no blank line closes no frame: it only grows the
    buffer. *)
Lemma feed_no_blank_line JSON_parse st events value :
  TextDecoder.bytes_needed (TextDecoder.decoder (decoder st)) = 0 ->
  forallb is_ascii value = true ->
  has_blank_line (buffer st ++ ascii_text value) = false ->
  snd (feed JSON_parse st events value) = events /\
  buffer (fst (feed JSON_parse st events value))
  = buffer st ++ ascii_text value.
Proof.
  intros Hd Ha Hb. rewrite feed_eq. cbn [fst snd].
  rewrite frames_removelast, next_stream_buffer.
  rewrite (proj1 (decode_ascii_chunk _ _ Hd Ha)).
  rewrite (no_blank_line_split _ Hb). split; reflexivity.
Qed.

(** X6: a frame that the body does not close with a blank line is lost.
    When the last chunk leaves the buffer without a blank line and the body
    ends, the handler completes with the events of the chunks before and
    nothing for the text in the buffer, however complete that text is. *)
Theorem unterminated_frame_dropped JSON_parse a chunks value :
  trim (prompt a) <> [] ->
  TextDecoder.bytes_needed
    (TextDecoder.decoder
       (decoder (fst (feed_all JSON_parse stream_init [] chunks)))) = 0 ->
  forallb is_ascii value = true ->
  has_blank_line
    (buffer (fst (feed_all JSON_parse stream_init [] chunks))
     ++ ascii_text value) = false ->
  events (box (startAgent JSON_parse a
                 (FetchResponse true
                    (Some (map ReadValue (chunks ++ [value])
                           ++ [ReadDone])))))
  = snd (feed_all JSON_parse stream_init [] chunks) /\
  exit (startAgent JSON_parse a
          (FetchResponse true
             (Some (map ReadValue (chunks ++ [value]) ++ [ReadDone]))))
  = Completed.
Proof.
  intros Hp Hd Ha Hb. unfold startAgent.
  destruct (trim (prompt a)) as [|c t]; [contradiction|].
  cbn [try_block negb orb no_body].
  rewrite read_loop_values, feed_all_app. cbn [feed_all read_loop].
  destruct (feed_no_blank_line JSON_parse _
              (snd (feed_all JSON_parse stream_init [] chunks)) value
              Hd Ha Hb) as [He _].
  destruct (feed JSON_parse (fst (feed_all JSON_parse stream_init [] chunks))
              (snd (feed_all JSON_parse stream_init [] chunks)) value)
    as [st' ev']. cbn [fst snd events box exit] in *.
  now subst ev'.
Qed.

Lemma unterminated_frame_dropped_witness :
  trim (prompt agent_idle) <> [] /\
  forallb is_ascii (bytes "data: {'type':'final','answer':'ok'}") = true /\
  events (box (startAgent JSON.parse agent_idle
                 (FetchResponse true
                    (Some (map ReadValue
                             ([frame_status_hi]
                              ++ [bytes "data: {'type':'final','answer':'ok'}"])
                           ++ [ReadDone])))))
  = [status_hi].
Proof.
  assert (Hp : trim (prompt agent_idle) <> [])
    by (vm_compute; discriminate).
  split; [exact Hp|]. split; [vm_compute; reflexivity|].
  rewrite (proj1 (unterminated_frame_dropped JSON.parse agent_idle
                    [frame_status_hi]
                    (bytes "data: {'type':'final','answer':'ok'}") Hp
                    eq_refl eq_refl eq_refl)).
  vm_compute. reflexivity.
Defined.

Lemma lit_data_space : lit "data: " = [100; 97; 116; 97; 58; 32].
Proof. reflexivity. Qed.

Lemma ascii_text_data_space : ascii_text (bytes "data: ") = lit "data: ".
Proof. reflexivity. Qed.

(** X7: one well-formed frame gives one event.  A chunk made of the marker
    [data: ], an ASCII payload on one line without white space at its ends,
    and a blank line, fed to the fresh loop, closes exactly that frame and
    leaves the buffer empty; the log gets [done] for the sentinel, the parsed
    value when the payload parses, and nothing otherwise. *)
Theorem frame_gives_its_event JSON_parse payload events :
  forallb is_ascii payload = true ->
  one_line (ascii_text payload) = true ->
  is_white_space (hd 32 (ascii_text payload)) = false ->
  is_white_space (last (ascii_text payload) 32) = false ->
  buffer (fst (feed JSON_parse stream_init events
                 (bytes "data: " ++ payload ++ [x0a; x0a]))) = [] /\
  snd (feed JSON_parse stream_init events
         (bytes "data: " ++ payload ++ [x0a; x0a]))
  = if eqb (ascii_text payload) (lit "[DONE]") then events ++ [done_event]
    else match JSON_parse (ascii_text payload) with
         | Some obj => events ++ [obj]
         | None => events
         end.
Proof.
  intros Ha Hl Hh Ht.
  set (p := ascii_text payload) in *.
  assert (Hp : exists c t, p = c :: t /\ is_white_space c = false).
  { destruct p as [|c t]; [discriminate|]. now exists c, t. }
  destruct Hp as (c & t & Ep & Hc).
  assert (Hascii : forallb is_ascii (bytes "data: " ++ payload ++ [x0a; x0a])
                   = true).
  { rewrite !forallb_app, Ha. reflexivity. }
  assert (Htext : ascii_text (bytes "data: " ++ payload ++ [x0a; x0a])
                  = (lit "data: " ++ p) ++ [LF; LF]).
  { unfold ascii_text. rewrite !map_app. fold (ascii_text (bytes "data: ")).
    rewrite ascii_text_data_space. fold (ascii_text payload). fold p.
    now rewrite <- app_assoc. }
  assert (Hline : one_line (lit "data: " ++ p) = true).
  { unfold one_line in *. rewrite forallb_app, Hl. reflexivity. }
  assert (Hlast : is_white_space (last (lit "data: " ++ p) 32) = false).
  { rewrite last_app_not_nil by (rewrite Ep; discriminate). exact Ht. }
  assert (Hmark : startsWith (lit "data: " ++ p) (lit "data:") = true).
  { rewrite lit_data_space. reflexivity. }
  assert (Hstrip : strip_marker (lit "data: " ++ p) = p).
  { unfold strip_marker. rewrite Hmark, lit_data_space. cbn [app skipn].
    cbn [dropWhile]. replace (is_white_space 32) with true by reflexivity.
    rewrite Ep. now apply dropWhile_fixed. }
  rewrite feed_eq. cbn [fst snd].
  rewrite frames_removelast, next_stream_buffer.
  rewrite (proj1 (decode_ascii_chunk (decoder stream_init) _ eq_refl Hascii)).
  rewrite Htext. cbn [buffer stream_init app].
  rewrite (one_frame_split _ Hline).
  cbn [last removelast]. split; [reflexivity|].
  cbn [for_parts].
  rewrite (proj1 (data_line_first _ [] Hmark Hline Hlast)), Hstrip.
  reflexivity.
Qed.

Lemma frame_gives_its_event_witness :
  forallb is_ascii payload_final = true /\
  one_line (ascii_text payload_final) = true /\
  is_white_space (hd 32 (ascii_text payload_final)) = false /\
  is_white_space (last (ascii_text payload_final) 32) = false /\
  snd (feed JSON.parse stream_init [status_hi]
         (bytes "data: " ++ payload_final ++ [x0a; x0a]))
  = [status_hi; final_ok].
Proof.
  assert (H1 : forallb is_ascii payload_final = true)
    by (vm_compute; reflexivity).
  assert (H2 : one_line (ascii_text payload_final) = true)
    by (vm_compute; reflexivity).
  assert (H3 : is_white_space (hd 32 (ascii_text payload_final)) = false)
    by (vm_compute; reflexivity).
  assert (H4 : is_white_space (last (ascii_text payload_final) 32) = false)
    by (vm_compute; reflexivity).
  repeat (split; [assumption|]).
  rewrite (proj2 (frame_gives_its_event JSON.parse payload_final [status_hi]
                    H1 H2 H3 H4)).
  vm_compute. reflexivity.
Defined.

(* ================================================================== *)
(** * Further properties of the upload pipeline                        *)
(* ================================================================== *)

Local Open Scope nat_scope.

Lemma upload_loop_frame_any items : forall net uploads i item,
  nth_error uploads i = Some item ->
  ~ In (ref (file item)) (map (fun x => ref (file x)) items) ->
  nth_error (fst (upload_loop items net uploads)) i = Some item.
Proof.
  induction items as [|x items IH]; intros net uploads i item Hi Hnot;
    cbn [upload_loop].
  - exact Hi.
  - assert (Hf : same_file (file item) (file x) = false).
    { apply same_file_false. intros E. apply Hnot. now left. }
    pose proof (set_status_other (file x) uploading _ _ _ Hi Hf) as H1.
    destruct net as [|r net]; [exact H1|].
    pose proof (set_status_other (file x) (final_status r) _ _ _ H1 Hf) as H2.
    specialize (IH net _ i item H2).
    destruct (upload_loop items net _) as [u trace]. cbn [fst] in *.
    apply IH. intros E. apply Hnot. now right.
Qed.

Lemma new_items_refs files :
  map (fun x => ref (file x)) (new_items files) = map ref files.
Proof. unfold new_items. now rewrite map_map. Qed.

(** X13: a run keeps every entry and adds one per file, and it leaves the
    entries of earlier batches alone, at their places behind the new ones
    and with their statuses, as long as their file is not a file object of
    the new batch; this holds at every stage of the run, whatever has
    settled. *)
Theorem earlier_uploads_untouched files net prev :
  List.length (fst (handleFiles files net prev))
  = List.length files + List.length prev /\
  forall i item,
    nth_error prev i = Some item ->
    ~ In (ref (file item)) (map ref files) ->
    nth_error (fst (handleFiles files net prev)) (List.length files + i)
    = Some item.
Proof.
  split.
  - rewrite <- (length_map file), handleFiles_files, length_app.
    now rewrite length_map.
  - intros i item Hi Hnot. unfold handleFiles.
    pose proof (upload_loop_frame_any (new_items files) net
                  (enqueue files prev) (List.length files + i) item) as H.
    destruct (upload_loop (new_items files) net (enqueue files prev))
      as [u trace]. cbn [fst] in *. apply H.
    + unfold enqueue.
      rewrite nth_error_app2 by (unfold new_items; rewrite length_map; lia).
      unfold new_items. rewrite length_map.
      now replace (List.length files + i - List.length files) with i by lia.
    + now rewrite new_items_refs.
Qed.

Lemma earlier_uploads_untouched_witness :
  ~ In (ref file_a) (map ref [file_b; file_c]) /\
  nth_error
    (fst (handleFiles [file_b; file_c] [IngestReject]
            [{| file := file_a; status := done |}])) 2
  = Some {| file := file_a; status := done |}.
Proof.
  assert (H : ~ In (ref file_a) (map ref [file_b; file_c]))
    by (cbn; intuition discriminate).
  split; [exact H|].
  exact (proj2 (earlier_uploads_untouched [file_b; file_c] [IngestReject]
                  [{| file := file_a; status := done |}])
           0 {| file := file_a; status := done |} eq_refl H).
Defined.

Lemma handleFiles_status_at files net prev i f r :
  NoDup (map ref files) ->
  List.length net = List.length files ->
  nth_error files i = Some f -> nth_error net i = Some r ->
  status_at i (fst (handleFiles files net prev)) = Some (final_status r).
Proof.
  intros Hnd Hlen Hf Hr. unfold handleFiles.
  destruct (nth_error_split _ _ Hf) as (pre & post & -> & Hi). subst i.
  assert (Hitem : nth_error (enqueue (pre ++ f :: post) prev)
                    (List.length pre)
                  = Some {| file := f; status := queued |}).
  { unfold enqueue, new_items. rewrite map_app. cbn [map].
    rewrite <- app_assoc.
    rewrite nth_error_app2 by (rewrite length_map; lia).
    rewrite length_map, Nat.sub_diag. reflexivity. }
  destruct (upload_loop_own pre f post net _ _ _ r Hitem eq_refl Hnd Hlen Hr)
    as [_ Hb].
  destruct (upload_loop (new_items (pre ++ f :: post)) net
              (enqueue (pre ++ f :: post) prev)) as [u trace].
  exact Hb.
Qed.

(** X14: when all uploads of a batch of distinct file objects have settled,
    the statuses of its entries, read from the top of the list, are the
    results of the uploads in the order of the files: [done] for each upload
    that went through, [error] for each that did not, and no entry is left
    [queued] or [uploading]. *)
Theorem final_statuses_are_outcomes files net prev :
  NoDup (map ref files) ->
  List.length net = List.length files ->
  map status (firstn (List.length files) (fst (handleFiles files net prev)))
  = map final_status net.
Proof.
  intros Hnd Hlen. apply nth_error_ext. intros i.
  rewrite !nth_error_map, nth_error_firstn.
  destruct (Nat.ltb i (List.length files)) eqn:E.
  - apply Nat.ltb_lt in E.
    destruct (nth_error files i) as [f|] eqn:Hf;
      [|apply nth_error_None in Hf; lia].
    destruct (nth_error net i) as [r|] eqn:Hr;
      [|apply nth_error_None in Hr; lia].
    exact (handleFiles_status_at files net prev i f r Hnd Hlen Hf Hr).
  - apply Nat.ltb_ge in E.
    assert (Hn : nth_error net i = None) by (apply nth_error_None; lia).
    now rewrite Hn.
Qed.

Lemma final_statuses_are_outcomes_witness :
  NoDup (map ref [file_a; file_b; file_c]) /\
  map status
    (firstn 3
       (fst (handleFiles [file_a; file_b; file_c]
               [IngestResponse false true; IngestResponse true false;
                IngestResponse true true]
               [{| file := file_a; status := queued |}])))
  = [error; error; done].
Proof.
  assert (Hnd : NoDup (map ref [file_a; file_b; file_c])).
  { repeat constructor; cbn; intuition discriminate. }
  split; [exact Hnd|].
  exact (final_statuses_are_outcomes [file_a; file_b; file_c]
           [IngestResponse false true; IngestResponse true false;
            IngestResponse true true]
           [{| file := file_a; status := queued |}] Hnd eq_refl).
Defined.

Lemma upload_loop_stalled_requests files : forall net uploads,
  List.length net < List.length files ->
  requests (snd (upload_loop (new_items files) net uploads))
  = firstn (S (List.length net)) files.
Proof.
  induction files as [|f files IH]; intros net uploads Hlen.
  - cbn in Hlen. lia.
  - cbn [new_items map upload_loop file]. fold (new_items files).
    destruct net as [|r net].
    + cbn [snd requests List.length firstn]. reflexivity.
    + specialize (IH net (set_status f (final_status r)
                            (set_status f uploading uploads))).
      destruct (upload_loop (new_items files) net _) as [u trace].
      cbn [snd requests List.length firstn] in *.
      rewrite IH; [reflexivity|]. cbn in Hlen. lia.
Qed.

Lemma set_status_file_at f s prev i item :
  nth_error prev i = Some item ->
  exists item', nth_error (set_status f s prev) i = Some item' /\
                file item' = file item.
Proof.
  intros H. rewrite set_status_nth, H. cbn [option_map].
  destruct (same_file (file item) f); eauto.
Qed.

(** The loop that stays at the upload of [f]: the entries of [f] show
    [uploading], the entries of files it has not come to are as before. *)
Lemma upload_loop_stalled pre : forall f post net uploads,
  List.length net = List.length pre ->
  (forall i item,
      nth_error uploads i = Some item ->
      ~ In (ref (file item)) (map ref (pre ++ [f])) ->
      nth_error (fst (upload_loop (new_items (pre ++ f :: post)) net uploads)) i
      = Some item) /\
  (forall i item,
      nth_error uploads i = Some item ->
      ref (file item) = ref f ->
      status_at i (fst (upload_loop (new_items (pre ++ f :: post)) net uploads))
      = Some uploading).
Proof.
  induction pre as [|p pre IH]; intros f post net uploads Hlen.
  - destruct net as [|r net]; [|discriminate].
    cbn [app new_items map upload_loop file fst]. split.
    + intros i item Hi Hnot. apply set_status_other; [exact Hi|].
      apply same_file_false. intros E. apply Hnot. now left.
    + intros i item Hi Href. unfold status_at.
      rewrite (set_status_same f uploading _ _ _ Hi); [reflexivity|].
      now apply same_file_ref.
  - destruct net as [|r net]; [discriminate|].
    cbn [app new_items map upload_loop file]. fold (new_items (pre ++ f :: post)).
    set (u2 := set_status p (final_status r) (set_status p uploading uploads)).
    destruct (IH f post net u2) as [IH1 IH2]; [cbn in Hlen; lia|].
    destruct (upload_loop (new_items (pre ++ f :: post)) net u2)
      as [u trace]. cbn [fst] in *. split.
    + intros i item Hi Hnot.
      assert (Hf : same_file (file item) p = false).
      { apply same_file_false. intros E. apply Hnot. now left. }
      apply IH1.
      * unfold u2. now repeat apply set_status_other.
      * intros E. apply Hnot. now right.
    + intros i item Hi Href.
      destruct (set_status_file_at p uploading _ _ _ Hi) as (x1 & H1 & F1).
      destruct (set_status_file_at p (final_status r) _ _ _ H1)
        as (x2 & H2 & F2).
      apply (IH2 i x2 H2). now rewrite F2, F1.
Qed.

Lemma NoDup_app_disjoint {A} (l1 l2 : list A) a :
  NoDup (l1 ++ l2) -> In a l1 -> In a l2 -> False.
Proof.
  induction l1 as [|x l1 IH]; intros Hnd H1 H2; [contradiction|].
  cbn [app] in Hnd. apply NoDup_cons_iff in Hnd as [Hx Hnd].
  destruct H1 as [->|H1]; [|now apply IH].
  apply Hx, in_or_app. now right.
Qed.

(** X15: an upload that never settles holds up the batch.  With the
    uploads of the first [n] files settled and the next one pending, the
    requests issued are those of the first [n + 1] files and no more; the
    entry of the pending file shows [uploading] and the entries of all files
    behind it still show [queued]: there is no timeout and no skipping. *)
Theorem stalled_upload_blocks_rest files net prev :
  NoDup (map ref files) ->
  List.length net < List.length files ->
  requests (snd (handleFiles files net prev))
  = firstn (S (List.length net)) files /\
  status_at (List.length net) (fst (handleFiles files net prev))
  = Some uploading /\
  forall i,
    List.length net < i -> i < List.length files ->
    status_at i (fst (handleFiles files net prev)) = Some queued.
Proof.
  intros Hnd Hlen. unfold handleFiles.
  pose proof (upload_loop_stalled_requests files net (enqueue files prev) Hlen)
    as Hreq.
  destruct (nth_error files (List.length net)) as [f|] eqn:Hf;
    [|apply nth_error_None in Hf; lia].
  destruct (nth_error_split _ _ Hf) as (pre & post & E & Hpre).
  destruct (upload_loop_stalled pre f post net (enqueue files prev)
              (eq_sym Hpre)) as [H1 H2].
  rewrite <- E in H1, H2.
  assert (Hitem : forall i g,
             nth_error files i = Some g ->
             nth_error (enqueue files prev) i
             = Some {| file := g; status := queued |}).
  { intros i g Hg. unfold enqueue, new_items.
    rewrite nth_error_app1
      by (rewrite length_map; apply nth_error_Some; congruence).
    now rewrite nth_error_map, Hg. }
  destruct (upload_loop (new_items files) net (enqueue files prev))
    as [u trace]. cbn [fst snd requests] in *.
  split; [exact Hreq|]. split.
  - exact (H2 _ _ (Hitem _ _ Hf) eq_refl).
  - intros i Hi Hi'.
    destruct (nth_error files i) as [g|] eqn:Hg;
      [|apply nth_error_None in Hg; lia].
    unfold status_at. rewrite (H1 i _ (Hitem _ _ Hg)); [reflexivity|].
    cbn [file]. intros Hin.
    assert (Hpost : In (ref g) (map ref post)).
    { rewrite E in Hg.
      replace (pre ++ f :: post) with ((pre ++ [f]) ++ post) in Hg
        by now rewrite <- app_assoc.
      rewrite nth_error_app2 in Hg by (rewrite length_app; cbn; lia).
      apply nth_error_In in Hg. now apply in_map. }
    rewrite E in Hnd.
    replace (pre ++ f :: post) with ((pre ++ [f]) ++ post) in Hnd
      by now rewrite <- app_assoc.
    rewrite map_app in Hnd.
    exact (NoDup_app_disjoint _ _ _ Hnd Hin Hpost).
Qed.

Lemma stalled_upload_blocks_rest_witness :
  NoDup (map ref [file_a; file_b; file_c]) /\
  requests (snd (handleFiles [file_a; file_b; file_c]
                   [IngestResponse true true] []))
  = [file_a; file_b] /\
  map status (fst (handleFiles [file_a; file_b; file_c]
                     [IngestResponse true true] []))
  = [done; uploading; queued].
Proof.
  assert (Hnd : NoDup (map ref [file_a; file_b; file_c])).
  { repeat constructor; cbn; intuition discriminate. }
  split; [exact Hnd|]. split; [|reflexivity].
  exact (proj1 (stalled_upload_blocks_rest [file_a; file_b; file_c]
                  [IngestResponse true true] [] Hnd
                  (le_S 2 2 (le_n 2)))).
Defined.

Local Open Scope Z_scope.

(* ================================================================== *)
(** * [handleAsk]                                                      *)
(* ================================================================== *)

(** X16: a query that is empty or white space only is not submitted:
    nothing is requested, nothing is printed, and the state is untouched,
    the results of the query before included.  Every other query goes to
    [runQuery], which first empties the results. *)
Theorem blank_query_not_submitted q net a :
  handleAsk q net a
  = if forallb is_white_space q then (a, []) else runQuery q net a.
Proof.
  unfold handleAsk. rewrite <- trim_nil_bool. now destruct (trim q).
Qed.

(* ================================================================== *)
(** * What the cut and the sentinel leave                              *)
(* ================================================================== *)

Lemma last_cons_head c pieces (x y : jsstring) rest :
  pieces = x :: y :: rest ->
  last (cons_head c pieces) [] = last pieces [].
Proof. now intros ->. Qed.

(** The piece [split] leaves open has no blank line. *)
Lemma split_scan_last_open s : forall k,
  has_blank_line (last (split_scan [LF; LF] s k) []) = false.
Proof.
  induction s as [|c s IH]; intros k; cbn [split_scan].
  - reflexivity.
  - destruct k as [|k]; [|apply IH].
    destruct (startsWith (c :: s) [LF; LF]) eqn:E.
    + rewrite last_cons. apply IH.
    + specialize (IH O).
      destruct (split_scan [LF; LF] s 0) as [|x [|y rest]] eqn:Es.
      * now apply split_scan_not_nil in Es.
      * apply split_scan_single in Es. subst x.
        cbn [cons_head last has_blank_line] in *. now rewrite E, IH.
      * now rewrite (last_cons_head c _ x y rest eq_refl).
Qed.

(** X9: cutting the buffer loses no text.  The frames a chunk closes and
    the buffer kept for the next chunk, joined by blank lines, are the old
    buffer followed by the text of the chunk; and the buffer that is kept
    has no blank line in it. *)
Theorem cut_loses_nothing st value :
  join [LF; LF] (frames st value ++ [buffer (next_stream st value)])
  = buffer st ++ snd (TextDecoder.decode (decoder st) value) /\
  has_blank_line (buffer (next_stream st value)) = false.
Proof.
  rewrite frames_removelast, next_stream_buffer. split.
  - rewrite <- app_removelast_last
      by (apply split_not_nil, blank_line_not_nil).
    apply split_join.
  - apply split_scan_last_open.
Qed.

(** X2: the sentinel cuts its chunk short.  When the frames before it in
    the chunk carry no sentinel, the log gets their events and then [done],
    and nothing for the frames behind the sentinel in the same chunk,
    whatever they hold. *)
Theorem sentinel_cuts_the_chunk JSON_parse pre chunk post events :
  forallb (fun c => negb (is_sentinel c)) pre = true ->
  is_sentinel chunk = true ->
  for_parts JSON_parse (pre ++ chunk :: post) events
  = for_parts JSON_parse pre events ++ [done_event].
Proof.
  intros Hpre Hs. rewrite (for_parts_app JSON_parse pre _ events Hpre).
  now apply for_parts_sentinel.
Qed.

Lemma sentinel_cuts_the_chunk_witness :
  forallb (fun c => negb (is_sentinel c)) [part_status_hi] = true /\
  is_sentinel part_done = true /\
  for_parts JSON.parse [part_status_hi; part_done; part_status_hi] []
  = [status_hi; done_event].
Proof.
  assert (H1 : forallb (fun c => negb (is_sentinel c)) [part_status_hi] = true)
    by (vm_compute; reflexivity).
  assert (H2 : is_sentinel part_done = true) by (vm_compute; reflexivity).
  split; [exact H1|]. split; [exact H2|].
  etransitivity.
  - exact (sentinel_cuts_the_chunk JSON.parse [part_status_hi] part_done
             [part_status_hi] [] H1 H2).
  - vm_compute. reflexivity.
Defined.
